(** * StratX partial dependence: a shallow embedding of [stratx/partdep.py]

    The development follows the Python module top to bottom:
    the numpy primitives the module relies on, the leaf partitioner
    ([leaf_samples]), the continuous stratifier ([finite_differences],
    [collect_discrete_slopes], [avg_slopes_at_x_jit], [partial_dependence],
    the data path of [plot_stratpd]) and the categorical stratifier
    ([catwise_leaves], [avg_values_at_cat], [nanavg_vectors]).

    Numeric model.  A numpy [float64] cell is either a number or NaN.  Numbers
    are modelled by the canonical rationals [Qc] (exact arithmetic, Leibniz
    equality; rounding error, overflow and infinities are not modelled) and
    an array that may hold NaN is a [list (option Qc)] with [None] for NaN.
    Arrays that the code only ever fills with numbers (the sample columns,
    the per-leaf slopes, the integrated curve) are [list Qc].  Integer
    arrays (leaf ids, category codes, sample counts) are [list Z]; index
    arrays are [list nat].

    The random forest is external: it is consumed through
    [len(rf.estimators_)] and [rf.apply], and functions that fit a forest in
    the source take the fitted forest as an argument here. *)

From Stdlib Require Import QArith Qcanon Qround Field.
From stdpp Require Import base numbers list sorting gmap.

Local Open Scope Qc_scope.

(** ** Exceptions *)

Inductive exn : Set :=
| IndexError
| ValueError.

Global Instance exn_eq_dec : EqDecision exn.
Proof. solve_decision. Defined.

Definition result (A : Type) : Type := exn + A.

Definition ret {A} (a : A) : result A := inr a.
Definition raise {A} (e : exn) : result A := inl e.
Definition bind {A B} (m : result A) (k : A → result B) : result B :=
  match m with
  | inl e => inl e
  | inr a => k a
  end.

Notation "'let!' p := m 'in' k" := (bind m (λ p, k))
  (at level 10, p pattern, m at level 100, k at level 200).

(** ** numpy primitives *)

Module np.

(** [np.nan] and [np.isnan] *)
Definition isnan (a : option Qc) : bool :=
  match a with
  | None => true
  | Some _ => false
  end.

(** Arithmetic on cells that may be NaN: NaN is absorbing. *)
Definition lift2 (f : Qc → Qc → Qc) (a b : option Qc) : option Qc :=
  match a, b with
  | Some x, Some y => Some (f x y)
  | _, _ => None
  end.

(** [np.unique(a)]: the sorted distinct values of [a]. *)
Definition unique {A} (R : relation A) `{!RelDecision R, !EqDecision A}
    (l : list A) : list A :=
  merge_sort R (remove_dups l).

(** [np.where(mask)[0]]: the positions at which [mask] holds, ascending. *)
Fixpoint where_from (i : nat) (mask : list bool) : list nat :=
  match mask with
  | [] => []
  | b :: m => (if b then [i] else []) ++ where_from (S i) m
  end.

Definition where_ (mask : list bool) : list nat := where_from 0 mask.

(** [a[mask]]: boolean-mask selection. *)
Fixpoint select {A} (l : list A) (mask : list bool) : list A :=
  match l, mask with
  | a :: l', b :: m' => if b then a :: select l' m' else select l' m'
  | _, _ => []
  end.

(** [a[idx]] for an index array [idx].  numpy raises on an index past the
    end; every index array built in this module is in range, and the
    model reads the default there. *)
Definition pick {A} (d : A) (l : list A) (idx : list nat) : list A :=
  (λ i, nth i l d) <$> idx.

(** [a[:-1]] *)
Definition init {A} (l : list A) : list A := take (length l - 1) l.

(** [M[:, t]] for a matrix stored as a list of rows. *)
Definition column {A} (d : A) (t : nat) (M : list (list A)) : list A :=
  (λ row, nth t row d) <$> M.

(** [np.diff(a)] *)
Fixpoint diff (l : list Qc) : list Qc :=
  match l with
  | a :: (b :: _) as t => (b - a) :: diff t
  | _ => []
  end.

(** [np.sum(a)] *)
Definition sum (l : list Qc) : Qc := foldr Qcplus 0 l.

(** [a.mean()]; the arrays averaged in this module are never empty. *)
Definition mean (l : list Qc) : Qc := sum l / Qc_of_Z (Z.of_nat (length l)).

(** [np.nancumsum(a)]: running sum in which NaN counts as 0. *)
Fixpoint nancumsum_from (acc : Qc) (l : list (option Qc)) : list Qc :=
  match l with
  | [] => []
  | d :: t =>
      let acc' := acc + default 0 d in
      acc' :: nancumsum_from acc' t
  end.

Definition nancumsum (l : list (option Qc)) : list Qc := nancumsum_from 0 l.

(** [np.sum(np.isnan(row))] *)
Definition count_nan (row : list (option Qc)) : nat :=
  length (filter (λ a, isnan a = true) row).

(** [np.nanmean(row)]: the mean of the cells that are not NaN. *)
Definition nanmean (row : list (option Qc)) : Qc :=
  mean (omap id row).

(** [np.argmax(a)]: the first position of the largest entry. *)
Fixpoint argmax_from (best_i : nat) (best : Z) (i : nat) (l : list Z) : nat :=
  match l with
  | [] => best_i
  | a :: t =>
      if bool_decide (best < a)%Z then argmax_from i a (S i) t
      else argmax_from best_i best (S i) t
  end.

Definition argmax (l : list Z) : nat :=
  match l with
  | [] => 0%nat
  | a :: t => argmax_from 0 a 1 t
  end.

(** [np.min(a)] and [np.max(a)]; both raise [ValueError] on an empty array. *)
Definition min (l : list Qc) : result Qc :=
  match l with
  | [] => raise ValueError
  | a :: t => ret (foldl (λ m x, if bool_decide (x < m) then x else m) a t)
  end.

Definition max (l : list Qc) : result Qc :=
  match l with
  | [] => raise ValueError
  | a :: t => ret (foldl (λ m x, if bool_decide (m < x) then x else m) a t)
  end.

(** [np.abs] *)
Definition abs (a : Qc) : Qc := if bool_decide (a < 0) then - a else a.

(** [np.rint]: round to the nearest integer, ties to the even one. *)
Definition rint (a : Qc) : Z :=
  let f := Qfloor a in
  let r := a - Qc_of_Z f in
  if bool_decide (r < Q2Qc (1 # 2)) then f
  else if bool_decide (Q2Qc (1 # 2) < r) then (f + 1)%Z
  else if Z.even f then f else (f + 1)%Z.

(** [a.round(decimals=10)] *)
Definition round10 (a : Qc) : Qc :=
  Qc_of_Z (rint (a * Qc_of_Z (10 ^ 10))) / Qc_of_Z (10 ^ 10).

(** The position an integer index [c] denotes in an axis of length [n]:
    negative indices count from the end, anything else raises. *)
Definition index (n : nat) (c : Z) : result nat :=
  if bool_decide (0 ≤ c < Z.of_nat n)%Z then ret (Z.to_nat c)
  else if bool_decide (- Z.of_nat n ≤ c < 0)%Z then ret (Z.to_nat (c + Z.of_nat n))
  else raise IndexError.

(** [a[idx] = vals] for an integer index array, written in order. *)
Fixpoint scatter {A} (a : list A) (idx : list Z) (vals : list A) : result (list A) :=
  match idx, vals with
  | c :: idx', v :: vals' =>
      match index (length a) c with
      | inl e => inl e
      | inr i => scatter (<[i := v]> a) idx' vals'
      end
  | _, _ => inr a
  end.

(** The counts of [np.unique(a, return_counts=True)]. *)
Definition unique_counts (l : list Z) : list Z :=
  (λ u, Z.of_nat (length (filter (λ c, c = u) l))) <$> unique Z.le l.

End np.

(** ** Leaf partitioner *)

(** The fitted forest: the number of trees and, for one sample row, the leaf
    id it reaches in each tree ([rf.apply] maps this over the rows). *)
Record forest : Type := Forest {
  n_estimators : nat;
  apply_row : list Qc → list Z
}.

Definition rf_apply (rf : forest) (X : list (list Qc)) : list (list Z) :=
  apply_row rf <$> X.

(** One round of the loop of [leaf_samples]: the groups of tree [t]. *)
Definition leaf_samples_tree (leaf_ids : list (list Z)) (t : nat) : list (list nat) :=
  let col := np.column 0%Z t leaf_ids in
  let uniq_ids := np.unique Z.le col in
  (λ id, np.where_ ((λ c, bool_decide (c = id)) <$> col)) <$> uniq_ids.

Definition leaf_samples (rf : forest) (X_not_col : list (list Qc)) : list (list nat) :=
  let n_trees := n_estimators rf in
  let leaf_ids := rf_apply rf X_not_col in
  foldl (λ acc t, acc ++ leaf_samples_tree leaf_ids t) [] (seq 0 n_trees).

(** ** Continuous stratifier *)

Fixpoint foldM {A S} (f : S → A → result S) (s : S) (l : list A) : result S :=
  match l with
  | [] => ret s
  | a :: t => let! s' := f s a in foldM f s' t
  end.

(** [finite_differences(x, y)] returns [(leaf_xranges, leaf_slopes, ignored)];
    [leaf_xranges] is a 2-D array, stored as its list of rows. *)
Definition finite_differences (x y : list Qc) : list (list Qc) * list Qc * Z :=
  let ignored := 0%Z in
  let uniq_x := np.unique Qcle x in
  let avg_y :=
    (λ ux, np.mean (np.select y ((λ xi, bool_decide (xi = ux)) <$> x))) <$> uniq_x in
  if bool_decide (length uniq_x = 1%nat) then
    let ignored := (ignored + Z.of_nat (length x))%Z in
    ([[0]], [0], ignored)
  else
    let x_deltas := np.diff uniq_x in
    let y_deltas := np.diff avg_y in
    let leaf_slopes := zip_with Qcdiv y_deltas x_deltas in
    let leaf_xranges := zip_with (λ lo hi, [lo; hi]) uniq_x (tail uniq_x) in
    (leaf_xranges, leaf_slopes, ignored).

(** The body of the loop over leaves in [collect_discrete_slopes]; the state
    is [(leaf_slopes, leaf_xranges, ignored)]. *)
Definition collect_leaf (X_col y : list Qc)
    (st : list Qc * list (list Qc) * Z) (samples : list nat)
    : result (list Qc * list (list Qc) * Z) :=
  let '(leaf_slopes, leaf_xranges, ignored) := st in
  let leaf_x := np.pick 0 X_col samples in
  let leaf_y := np.pick 0 y samples in
  let! lo := np.min leaf_x in
  let! hi := np.max leaf_x in
  if bool_decide (np.abs (lo - hi) < Q2Qc (1 # 100000000)) then
    ret (leaf_slopes, leaf_xranges, (ignored + Z.of_nat (length leaf_x))%Z)
  else
    let '(leaf_xranges_, leaf_slopes_, ignored_) := finite_differences leaf_x leaf_y in
    ret (leaf_slopes ++ leaf_slopes_, leaf_xranges ++ leaf_xranges_,
         (ignored + ignored_)%Z).

Definition collect_discrete_slopes (rf : forest) (X_col : list Qc)
    (X_not_col : list (list Qc)) (y : list Qc)
    : result (list (list Qc) * list Qc * Z) :=
  let leaves := leaf_samples rf X_not_col in
  let! (leaf_slopes, leaf_xranges, ignored) := foldM (collect_leaf X_col y) ([], [], 0%Z) leaves in
  ret (leaf_xranges, leaf_slopes, ignored).

(** [np.where((uniq_x < xr[0]) | (uniq_x >= xr[1]), np.nan, slope)] *)
Definition slope_in_range (uniq_x : list Qc) (xr : list Qc) (slope : Qc)
    : list (option Qc) :=
  (λ x, if bool_decide (x < nth 0 xr 0) || bool_decide (nth 1 xr 0 ≤ x)
        then None else Some slope) <$> uniq_x.

(** The [nx] by [nslopes] matrix [slopes] is stored as its list of columns,
    the way the first loop fills it; [slopes[i, :]] reads across them. *)
Definition slopes_matrix (uniq_x : list Qc) (leaf_ranges : list (list Qc))
    (leaf_slopes : list Qc) : list (list (option Qc)) :=
  let nslopes := length leaf_slopes in
  (λ i, let xr := nth i leaf_ranges [] in
        let slope := nth i leaf_slopes 0 in
        slope_in_range uniq_x xr slope) <$> seq 0 nslopes.

Definition matrix_row (slopes : list (list (option Qc))) (i : nat) : list (option Qc) :=
  (λ col, nth i col None) <$> slopes.

Definition avg_slopes_at_x_jit (uniq_x : list Qc) (leaf_ranges : list (list Qc))
    (leaf_slopes : list Qc) : list (option Qc) * list Z :=
  let nx := length uniq_x in
  let nslopes := length leaf_slopes in
  let slopes := slopes_matrix uniq_x leaf_ranges leaf_slopes in
  let avg_slope_at_x :=
    (λ i, let row := matrix_row slopes i in
          let n_nan := np.count_nan row in
          if bool_decide (n_nan = nslopes) then None else Some (np.nanmean row))
      <$> seq 0 nx in
  let slope_counts_at_x :=
    (λ i, let row := matrix_row slopes i in
          let n_nan := np.count_nan row in
          (Z.of_nat nslopes - Z.of_nat n_nan)%Z) <$> seq 0 nx in
  (avg_slope_at_x, slope_counts_at_x).

(** The source repeats the function without [parallel=True]; the matrix
    starts from zeros instead of uninitialised memory and every cell is
    overwritten by the first loop. *)
Definition avg_slopes_at_x_nonparallel_jit (uniq_x : list Qc)
    (leaf_ranges : list (list Qc)) (leaf_slopes : list Qc)
    : list (option Qc) * list Z :=
  let nx := length uniq_x in
  let nslopes := length leaf_slopes in
  let slopes := slopes_matrix uniq_x leaf_ranges leaf_slopes in
  let avg_value_at_x :=
    (λ i, let row := matrix_row slopes i in
          let n_nan := np.count_nan row in
          if bool_decide (n_nan = nslopes) then None else Some (np.nanmean row))
      <$> seq 0 nx in
  let slope_counts_at_x :=
    (λ i, let row := matrix_row slopes i in
          let n_nan := np.count_nan row in
          (Z.of_nat nslopes - Z.of_nat n_nan)%Z) <$> seq 0 nx in
  (avg_value_at_x, slope_counts_at_x).

(** What [partial_dependence] returns. *)
Record PD : Type := mkPD {
  pd_leaf_xranges : list (list Qc);
  pd_leaf_slopes : list Qc;
  pd_slope_counts_at_x : list Z;
  pd_dx : list Qc;
  pd_slope_at_x : list (option Qc);
  pd_pdpx : list Qc;
  pd_pdpy : list Qc;
  pd_ignored : Z
}.

(** [np.where(slope_counts_at_x >= min_slopes_per_x, slope_at_x, np.nan)] *)
Definition weak_evidence_to_nan (min_slopes_per_x : Z) (slope_counts_at_x : list Z)
    (slope_at_x : list (option Qc)) : list (option Qc) :=
  zip_with (λ c s, if bool_decide (min_slopes_per_x ≤ c)%Z then s else None)
    slope_counts_at_x slope_at_x.

(** The integration block of [partial_dependence], from [dx = np.diff(pdpx)]
    to [pdpy = pdpy[idx_not_adjacent_nans]]; it returns [(dx, pdpx, pdpy)].
    [slope_at_x[0]] raises on an empty array. *)
Definition integrate (pdpx : list Qc) (slope_at_x : list (option Qc))
    : result (list Qc * list Qc * list Qc) :=
  let dx := np.diff pdpx in
  let dydx := np.init slope_at_x in
  let y_deltas := zip_with (λ s d, (λ v, v * d) <$> s) dydx dx in
  let pdpy := np.nancumsum y_deltas in
  let pdpy := 0 :: pdpy in
  let idx_not_adjacent_nans :=
    S <$> np.where_ (zip_with (λ a b, negb (np.isnan a && np.isnan b))
                       (tail slope_at_x) (np.init slope_at_x)) in
  let! s0 := match slope_at_x with
        | [] => raise IndexError
        | s :: _ => ret s
        end in
  let idx_not_adjacent_nans :=
    if negb (np.isnan s0) then 0%nat :: idx_not_adjacent_nans
    else idx_not_adjacent_nans in
  let pdpx := np.pick 0 pdpx idx_not_adjacent_nans in
  let pdpy := np.pick 0 pdpy idx_not_adjacent_nans in
  ret (dx, pdpx, pdpy).

(** [partial_dependence]: [X] is passed as its two parts, [X_not_col] (the
    rows without the column) and the column itself; [rf] is the forest the
    source fits on [X_not_col]. *)
Definition partial_dependence (rf : forest) (X_not_col : list (list Qc))
    (X_colname y : list Qc) (min_slopes_per_x : Z) (parallel_jit : bool)
    : result PD :=
  let X_col := np.round10 <$> X_colname in
  let! (leaf_xranges, leaf_slopes, ignored) := collect_discrete_slopes rf X_col X_not_col y in
  let real_uniq_x := np.unique Qcle X_col in
  let '(slope_at_x, slope_counts_at_x) :=
    if parallel_jit then avg_slopes_at_x_jit real_uniq_x leaf_xranges leaf_slopes
    else avg_slopes_at_x_nonparallel_jit real_uniq_x leaf_xranges leaf_slopes in
  let min_slopes_per_x :=
    if bool_decide (min_slopes_per_x ≤ 0)%Z then 1%Z else min_slopes_per_x in
  let slope_at_x := weak_evidence_to_nan min_slopes_per_x slope_counts_at_x slope_at_x in
  let pdpx := real_uniq_x in
  let! (dx, pdpx, pdpy) := integrate pdpx slope_at_x in
  ret (mkPD leaf_xranges leaf_slopes slope_counts_at_x dx slope_at_x pdpx pdpy ignored).

(** [avg_pd_curve], the closure inside [plot_stratpd]: [m] and [c] are the
    two [defaultdict]s, keyed by the x value. *)
Definition avg_pd_curve (n_trials : nat) (all_pdpx all_pdpy : list (list Qc))
    : list Qc * list Qc :=
  let add_point (mc : gmap Qc Qc * gmap Qc Z) (p : Qc * Qc) :=
    let '(m, c) := mc in
    let '(x, y) := p in
    (<[x := default 0 (m !! x) + y]> m, <[x := (default 0 (c !! x) + 1)%Z]> c) in
  let add_curve mc (pxy : list Qc * list Qc) :=
    foldl add_point mc (zip pxy.1 pxy.2) in
  let add_trial mc (i : nat) :=
    foldl add_curve mc (zip all_pdpx all_pdpy) in
  let '(m, c) := foldl add_trial (∅, ∅) (seq 0 n_trials) in
  let m := map_imap (λ x v, Some (v / Qc_of_Z (default 0 (c !! x))%Z)) m in
  let pdpx := merge_sort Qcle (map_to_list m).*1 in
  let pdpy := (λ x, default 0 (m !! x)) <$> pdpx in
  (pdpx, pdpy).

Section plot_stratpd.

(** [featimp.compute_importance] belongs to another module of the package;
    its result feeds the plot only.  It is a parameter here and may raise. *)
Variable compute_importance : list Qc → list Qc → list Qc → result (Qc * Qc).

(** The data path of [plot_stratpd] for [n_trials = 1] (no resampling); the
    drawing calls are left out.  It returns [(pdpx, pdpy, ignored)]. *)
Definition plot_stratpd (rf : forest) (X_not_col : list (list Qc))
    (X_colname y : list Qc) (min_slopes_per_x : Z)
    : result (list Qc * list Qc * Qc) :=
  let n_trials := 1%nat in
  let X_col := np.round10 <$> X_colname in
  let ignored := 0%Z in
  let! r := partial_dependence rf X_not_col X_colname y min_slopes_per_x true in
  let ignored := (ignored + pd_ignored r)%Z in
  let all_pdpx := [pd_pdpx r] in
  let all_pdpy := [pd_pdpy r] in
  let! _ := compute_importance X_col (pd_pdpx r) (pd_pdpy r) in
  let ignored := Qc_of_Z ignored / Qc_of_Z (Z.of_nat n_trials) in
  let '(pdpx, pdpy) := avg_pd_curve n_trials all_pdpx all_pdpy in
  if bool_decide (length pdpy = 0%nat) then raise ValueError
  else ret (pdpx, pdpy, ignored).

End plot_stratpd.

(** ** Evidence-fusion utilities *)

(** [np.where(a == 0, 1, a)] *)
Definition zero_as_one (a : list Qc) : list Qc :=
  (λ x, if bool_decide (x = 0) then 1 else x) <$> a.

(** [c[mask] = src[mask]] *)
Definition assign_mask {A} (c : list A) (mask : list bool) (src : list A) : list A :=
  zip_with (λ (cm : A * bool) s, if cm.2 then s else cm.1) (zip c mask) src.

(** [nanavg_vectors(a, b, wa, wb)]; the weights are arrays as long as [a]
    and [b] (a scalar weight broadcasts to such an array). *)
Definition nanavg_vectors (a b : list (option Qc)) (wa wb : list Qc)
    : list (option Qc) :=
  let a_nan := np.isnan <$> a in
  let b_nan := np.isnan <$> b in
  let c := zip_with (np.lift2 Qcplus)
             (zip_with (λ x w, (λ v, v * w) <$> x) a wa)
             (zip_with (λ x w, (λ v, v * w) <$> x) b wb) in
  let c := zip_with (λ x w, (λ v, v / w) <$> x) c
             (zero_as_one (zip_with Qcplus wa wb)) in
  let c := assign_mask c a_nan b in
  let in_a_not_b := zip_with (λ an bn, negb an && bn) a_nan b_nan in
  let c := assign_mask c in_a_not_b a in
  c.

(** ** Categorical stratifier *)

(** [leaf_deltas] and [leaf_counts] have one row per category code and one
    column per leaf; the code reads them by column only, and they are stored
    as their list of columns. *)

(** The body of the loop over leaves in [catwise_leaves] for one leaf: its
    column of [leaf_deltas], its column of [leaf_counts], its entry of
    [keep_leaf_idxs] and what it adds to [ignored]. *)
Definition catwise_leaf (ncats : nat) (X_col : list Z) (y : list Qc) (sample : list nat)
    : result (list (option Qc) * list Z * bool * Z) :=
  let deltas := replicate ncats None in
  let counts := replicate ncats 0%Z in
  let leaf_cats := np.pick 0%Z X_col sample in
  let leaf_y := np.pick 0 y sample in
  let uniq_leaf_cats := np.unique Z.le leaf_cats in
  let count_leaf_cats := np.unique_counts leaf_cats in
  let avg_y_per_cat :=
    (λ cat, np.mean (np.select leaf_y ((λ c, bool_decide (c = cat)) <$> leaf_cats)))
      <$> uniq_leaf_cats in
  if bool_decide (length uniq_leaf_cats < 2)%nat then
    ret (deltas, counts, false, Z.of_nat (length sample))
  else
    let idx_of_ref_cat_in_leaf := 0%nat in
    let delta_y_per_cat :=
      (λ a, a - nth idx_of_ref_cat_in_leaf avg_y_per_cat 0) <$> avg_y_per_cat in
    let! deltas := np.scatter deltas uniq_leaf_cats (Some <$> delta_y_per_cat) in
    let! counts := np.scatter counts uniq_leaf_cats count_leaf_cats in
    ret (deltas, counts, true, 0%Z).

(** [catwise_leaves] returns [(leaf_deltas, leaf_counts, ignored)], the two
    matrices restricted to the columns of the leaves that were kept. *)
Definition catwise_leaves (rf : forest) (X_not_col : list (list Qc))
    (X_col : list Z) (y : list Qc) (max_catcode : Z)
    : result (list (list (option Qc)) * list (list Z) * Z) :=
  let leaves := leaf_samples rf X_not_col in
  if bool_decide (max_catcode + 1 < 0)%Z then raise ValueError
  else
    let ncats := Z.to_nat (max_catcode + 1) in
    let! cols := foldM (λ acc sample,
                          let! c := catwise_leaf ncats X_col y sample in
                          ret (acc ++ [c])) [] leaves in
    let keep_leaf_idxs := (λ c : list (option Qc) * list Z * bool * Z, c.1.2) <$> cols in
    let ignored := foldr Z.add 0%Z ((λ c : list (option Qc) * list Z * bool * Z, c.2) <$> cols) in
    let leaf_deltas := np.select ((λ c : list (option Qc) * list Z * bool * Z, c.1.1.1) <$> cols) keep_leaf_idxs in
    let leaf_counts := np.select ((λ c : list (option Qc) * list Z * bool * Z, c.1.1.2) <$> cols) keep_leaf_idxs in
    ret (leaf_deltas, leaf_counts, ignored).

(** [are_intersecting = ~np.isnan(catavg) & ~np.isnan(v)] *)
Definition are_intersecting (catavg v : list (option Qc)) : list bool :=
  zip_with (λ a b, negb (np.isnan a) && negb (np.isnan b)) catavg v.

(** [ix = np.argmax(np.where((cur_weight>0) & are_intersecting, cur_weight, 0))] *)
Definition merge_anchor (catavg v : list (option Qc)) (cur_weight : list Z) : nat :=
  np.argmax (zip_with (λ w i, if bool_decide (0 < w)%Z && i then w else 0%Z)
               cur_weight (are_intersecting catavg v)).

(** One round of the inner loop of [avg_values_at_cat] for column [v] with
    weights [cur_weight]: [None] when the round ends at [continue], else the
    new [(catavg, catavg_weight)]. *)
Definition merge_column (catavg : list (option Qc)) (catavg_weight : list Z)
    (v : list (option Qc)) (cur_weight : list Z)
    : option (list (option Qc) * list Z) :=
  let intersection_idx := np.where_ (are_intersecting catavg v) in
  if bool_decide (length intersection_idx = 0%nat) then None
  else
    let ix := merge_anchor catavg v cur_weight in
    let shifted_v := (λ x, np.lift2 Qcminus x (nth ix v None)) <$> v in
    let relative_to_value := nth ix catavg None in
    let adjusted_v := (λ x, np.lift2 Qcplus x relative_to_value) <$> shifted_v in
    let catavg := nanavg_vectors catavg adjusted_v
                    (Qc_of_Z <$> catavg_weight) (Qc_of_Z <$> cur_weight) in
    let catavg_weight := zip_with Z.add catavg_weight cur_weight in
    Some (catavg, catavg_weight).

(** The state of the merge: the running vector, the count matrix (whose
    column 0 is [catavg_weight]: the source takes a view of it and adds to
    it in place) and the leaves merged in the current pass. *)
Record merge_state : Type := mkMerge {
  ms_catavg : list (option Qc);
  ms_leaf_counts : list (list Z);
  ms_completed : list nat
}.

Definition merge_leaf (leaf_deltas : list (list (option Qc)))
    (st : merge_state) (j : nat) : merge_state :=
  let v := nth j leaf_deltas [] in
  let catavg_weight := nth 0 (ms_leaf_counts st) [] in
  let cur_weight := nth j (ms_leaf_counts st) [] in
  match merge_column (ms_catavg st) catavg_weight v cur_weight with
  | None => st
  | Some (catavg, catavg_weight) =>
      mkMerge catavg (<[0%nat := catavg_weight]> (ms_leaf_counts st))
              (ms_completed st ++ [j])
  end.

(** The [while] loop; [left] is [max_iter - iteration + 1], the passes that
    remain.  [work] is a Python set of small integers, walked in ascending
    order; [work - completed] keeps that order. *)
Fixpoint merge_passes (left : nat) (leaf_deltas : list (list (option Qc)))
    (st : merge_state) (work : list nat) : merge_state * list nat :=
  match left with
  | O => (st, work)
  | S left' =>
      if bool_decide (0 < length work)%nat
         && bool_decide (0 < length (ms_completed st))%nat then
        let st := mkMerge (ms_catavg st) (ms_leaf_counts st) [] in
        let st := foldl (merge_leaf leaf_deltas) st work in
        let work := filter (λ j, j ∉ ms_completed st) work in
        merge_passes left' leaf_deltas st work
      else (st, work)
  end.

(** [avg_values_at_cat(leaf_deltas, leaf_counts, max_iter)] returns
    [(catavg, catavg_weight, merge_ignored)]; [leaf_deltas[:,0]] raises when
    there is no column.  [completed] starts as the set [{-1}], which only
    has to be non-empty. *)
Definition avg_values_at_cat (leaf_deltas : list (list (option Qc)))
    (leaf_counts : list (list Z)) (max_iter : Z)
    : result (list (option Qc) * list Z * Z) :=
  match leaf_deltas, leaf_counts with
  | catavg :: _, _ :: _ =>
      let work := seq 1 (length leaf_deltas - 1) in
      let st := mkMerge catavg leaf_counts [0%nat] in
      let '(st, work) := merge_passes (Z.to_nat max_iter) leaf_deltas st work in
      let merge_ignored :=
        if bool_decide (0 < length work)%nat then
          let num_obs_per_leaf := (λ col, foldr Z.add 0%Z col) <$> ms_leaf_counts st in
          foldr Z.add 0%Z (np.pick 0%Z num_obs_per_leaf work)
        else 0%Z in
      ret (ms_catavg st, nth 0 (ms_leaf_counts st) [], merge_ignored)
  | _, _ => raise IndexError
  end.

(** ** Predicates used in the statements *)

(** [x] lies in the half-open interval of the row [xr = [x_lo, x_hi]]. *)
Definition in_xrange (xr : list Qc) (x : Qc) : Prop :=
  nth 0 xr 0 ≤ x ∧ x < nth 1 xr 0.

(** A row of [leaf_xranges] is a pair [[x_lo, x_hi]] of values observed in
    the column [X_col]. *)
Definition segment_of (X_col : list Qc) (xr : list Qc) : Prop :=
  ∃ lo hi, xr = [lo; hi] ∧ lo ∈ X_col ∧ hi ∈ X_col.

(** ** Example inputs *)

Definition qz (z : Z) : Qc := Qc_of_Z z.

(** A forest of one tree that sends a row to the leaf numbered by the
    integer part of its first feature. *)
Definition rf_floor : forest := Forest 1 (λ row, [Qfloor (nth 0 row 0)]).

(** Five samples in two leaves: the first leaf sees x = 1, 2, 3 and the
    second only x = 4. *)
Definition ex_X_not_col : list (list Qc) := (λ z, [qz z]) <$> [0; 0; 0; 1; 1]%Z.
Definition ex_X_col : list Qc := qz <$> [1; 2; 3; 4; 4]%Z.
Definition ex_y : list Qc := qz <$> [0; 1; 4; 7; 9]%Z.

(** Six samples in two leaves that overlap on x = 2, 3: with a minimum of
    two slopes per x only x = 2 keeps its slope. *)
Definition ex2_X_not_col : list (list Qc) := (λ z, [qz z]) <$> [0; 0; 0; 1; 1; 1]%Z.
Definition ex2_X_col : list Qc := qz <$> [1; 2; 3; 2; 3; 4]%Z.
Definition ex2_y : list Qc := qz <$> [0; 1; 3; 5; 6; 8]%Z.

(** ** Fully resolved leaves *)

(** A leaf is a column of [leaf_deltas] with its column of [leaf_counts]. *)
Definition leaf : Type := list (option Qc) * list Z.

(** Every category is resolved in every column. *)
Definition fully_overlapping (leaf_deltas : list (list (option Qc))) : Prop :=
  Forall (Forall (λ d, d ≠ None)) leaf_deltas.

(** A leaf over [n] categories that has a delta and a positive sample count
    for every one of them. *)
Definition full_leaf (n : nat) (lf : leaf) : Prop :=
  length lf.1 = n ∧ length lf.2 = n
  ∧ Forall (λ d, d ≠ None) lf.1 ∧ Forall (λ w, 0 < w)%Z lf.2.

(** Closed form of a merge between two fully resolved vectors, on cells
    [(value, weight)]: the leaf cell [dw] is shifted by [a_ix - d_ix] and
    averaged into the running cell [aW]. *)
Definition shift_merge (a_ix d_ix : Qc) (aW dw : Qc * Z) : Qc * Z :=
  ((aW.1 * Qc_of_Z aW.2 + (dw.1 - d_ix + a_ix) * Qc_of_Z dw.2)
   / (Qc_of_Z aW.2 + Qc_of_Z dw.2),
   (aW.2 + dw.2)%Z).

Definition merge_full (ix : nat) (s l : list (Qc * Z)) : list (Qc * Z) :=
  zip_with (shift_merge (nth ix s (0, 0%Z)).1 (nth ix l (0, 0%Z)).1) s l.

Definition cells (lf : leaf) : list (Qc * Z) := zip (default 0 <$> lf.1) lf.2.

(** Three leaves over two categories, all fully resolved. *)
Definition leaf_A : leaf := ([Some 0; Some 0], [1; 1]%Z).
Definition leaf_B : leaf := ([Some 0; Some 1], [2; 1]%Z).
Definition leaf_C : leaf := ([Some 0; Some 2], [1; 2]%Z).
Definition leaf_D : leaf := ([Some 0; Some 2], [3; 1]%Z).

(** The CatWeight invariant of a leaf: as many weights as deltas, and a
    positive weight wherever the leaf has a delta. *)
Definition weights_cover (v : list (option Qc)) (w : list Z) : Prop :=
  length w = length v
  ∧ ∀ k d wk, v !! k = Some (Some d) → w !! k = Some wk → (0 < wk)%Z.

(** * Properties *)

(** ** numpy primitives *)

Section unique.
Context {A : Type} (R : relation A) `{!RelDecision R, !EqDecision A}.

Lemma elem_of_np_unique (l : list A) (x : A) : x ∈ np.unique R l ↔ x ∈ l.
Proof.
  unfold np.unique. rewrite merge_sort_Permutation. apply elem_of_remove_dups.
Qed.

Lemma NoDup_np_unique (l : list A) : NoDup (np.unique R l).
Proof.
  unfold np.unique. rewrite merge_sort_Permutation. apply NoDup_remove_dups.
Qed.

Lemma np_unique_sorted `{!Transitive R, !Total R} (l : list A) :
  StronglySorted R (np.unique R l).
Proof. apply StronglySorted_merge_sort; apply _. Qed.

Lemma np_unique_nil_inv (l : list A) : np.unique R l = [] → l = [].
Proof.
  intros H. destruct l as [|a l]; [done|].
  assert (a ∈ np.unique R (a :: l)) as Ha by (apply elem_of_np_unique; left).
  rewrite H in Ha. by apply not_elem_of_nil in Ha.
Qed.

End unique.

Lemma elem_of_np_where_from (mask : list bool) (i j : nat) :
  j ∈ np.where_from i mask ↔ ∃ k, j = (i + k)%nat ∧ mask !! k = Some true.
Proof.
  revert i. induction mask as [|b m IH]; intros i; simpl.
  - split; [by intros ?%not_elem_of_nil | by intros (k & _ & ?)].
  - rewrite elem_of_app, IH. split.
    + intros [Hj | (k & -> & Hk)].
      * destruct b; [|by apply not_elem_of_nil in Hj].
        apply list_elem_of_singleton in Hj as ->. exists 0%nat. split; [lia | done].
      * exists (S k). split; [lia | done].
    + intros ([|k] & -> & Hk); simpl in Hk.
      * left. injection Hk as ->. rewrite Nat.add_0_r. apply list_elem_of_singleton. done.
      * right. exists k. split; [lia | done].
Qed.

Lemma elem_of_np_where (mask : list bool) (j : nat) :
  j ∈ np.where_ mask ↔ mask !! j = Some true.
Proof.
  unfold np.where_. rewrite elem_of_np_where_from. split.
  - by intros (k & -> & ?).
  - intros ?. by exists j.
Qed.

Lemma NoDup_np_where_from (mask : list bool) (i : nat) : NoDup (np.where_from i mask).
Proof.
  revert i. induction mask as [|b m IH]; intros i; simpl; [constructor|].
  apply NoDup_app. split_and!.
  - destruct b; [apply NoDup_singleton | constructor].
  - intros x Hx (k & -> & _)%elem_of_np_where_from.
    destruct b; [|by apply not_elem_of_nil in Hx].
    apply list_elem_of_singleton in Hx. lia.
  - apply IH.
Qed.

(** ** Leaf partitioner *)

Lemma leaf_samples_unfold (rf : forest) (X_not_col : list (list Qc)) :
  leaf_samples rf X_not_col
  = seq 0 (n_estimators rf) ≫= leaf_samples_tree (rf_apply rf X_not_col).
Proof.
  unfold leaf_samples.
  generalize (leaf_samples_tree (rf_apply rf X_not_col)) as f.
  generalize (seq 0 (n_estimators rf)) as ts. intros ts f.
  rewrite <-(app_nil_l (ts ≫= f)). generalize (@nil (list nat)) as acc.
  induction ts as [|t ts IH]; intros acc; simpl.
  - by rewrite app_nil_r.
  - rewrite IH. by rewrite <-app_assoc.
Qed.

Lemma elem_of_leaf_group (col : list Z) (id : Z) (i : nat) :
  i ∈ np.where_ ((λ c, bool_decide (c = id)) <$> col) ↔ col !! i = Some id.
Proof.
  rewrite elem_of_np_where, list_lookup_fmap. destruct (col !! i) as [c|]; simpl.
  - split.
    + intros [= H%bool_decide_eq_true]. by subst.
    + intros [= ->]. by rewrite bool_decide_eq_true_2.
  - split; discriminate.
Qed.

(** C10: for every tree [t], the groups that [leaf_samples] emits for that
    tree partition the sample indices [0 .. n-1]: laid end to end they are a
    rearrangement of [0; ...; n-1] (each index occurs once, in one group),
    two different groups of the tree share no index, no group is empty, and
    the output of [leaf_samples] is these per-tree groupings one after the
    other (so an index can only repeat across trees). *)
Theorem leaf_samples_partition (rf : forest) (X_not_col : list (list Qc)) (t : nat) :
  let groups := leaf_samples_tree (rf_apply rf X_not_col) t in
  mjoin groups ≡ₚ seq 0 (length X_not_col)
  ∧ (∀ k1 k2 g1 g2 i,
       groups !! k1 = Some g1 → groups !! k2 = Some g2 →
       i ∈ g1 → i ∈ g2 → k1 = k2)
  ∧ Forall (λ g, g ≠ []) groups
  ∧ leaf_samples rf X_not_col
    = seq 0 (n_estimators rf) ≫= leaf_samples_tree (rf_apply rf X_not_col).
Proof.
  intros groups. subst groups. unfold leaf_samples_tree.
  set (col := np.column 0%Z t (rf_apply rf X_not_col)).
  assert (length col = length X_not_col) as Hlen.
  { unfold col, np.column, rf_apply. by rewrite !length_fmap. }
  set (grp := λ id : Z, np.where_ ((λ c, bool_decide (c = id)) <$> col)).
  assert (∀ id1 id2 i, i ∈ grp id1 → i ∈ grp id2 → id1 = id2) as Hdisj.
  { intros id1 id2 i H1%elem_of_leaf_group H2%elem_of_leaf_group. congruence. }
  split_and!.
  - rewrite list_join_bind. apply NoDup_Permutation.
    + apply NoDup_bind.
      * intros g1 g2 i (id1 & -> & Hid1)%list_elem_of_fmap (id2 & -> & Hid2)%list_elem_of_fmap.
        simpl. intros H1 H2. f_equal. by eapply Hdisj.
      * intros g (id & -> & _)%list_elem_of_fmap. apply NoDup_np_where_from.
      * apply NoDup_fmap_2_strong; [|apply NoDup_np_unique].
        intros id1 id2 Hid1 _ Heq.
        apply elem_of_np_unique, list_elem_of_lookup in Hid1 as [i Hi].
        apply (Hdisj id1 id2 i); [by apply elem_of_leaf_group|].
        change (i ∈ grp id2). rewrite <-Heq. by apply elem_of_leaf_group.
    + apply NoDup_seq.
    + intros i. rewrite list_elem_of_bind, elem_of_seq. simpl. split.
      * intros (g & Hi & (id & -> & _)%list_elem_of_fmap).
        apply elem_of_leaf_group, lookup_lt_Some in Hi. lia.
      * intros [_ Hi]. rewrite <-Hlen in Hi.
        apply lookup_lt_is_Some in Hi as [id Hid].
        exists (grp id). split; [by apply elem_of_leaf_group|].
        apply list_elem_of_fmap. exists id. split; [done|].
        apply elem_of_np_unique. by eapply list_elem_of_lookup_2.
  - intros k1 k2 g1 g2 i Hk1 Hk2 Hi1 Hi2.
    rewrite list_lookup_fmap in Hk1, Hk2.
    destruct (np.unique Z.le col !! k1) as [id1|] eqn:E1; [|done].
    destruct (np.unique Z.le col !! k2) as [id2|] eqn:E2; [|done].
    simpl in Hk1, Hk2. injection Hk1 as <-. injection Hk2 as <-.
    assert (id1 = id2) as -> by (by eapply Hdisj).
    eapply NoDup_lookup; [apply (NoDup_np_unique Z.le col) | done | done].
  - apply Forall_fmap, Forall_forall. intros id Hid. simpl.
    apply elem_of_np_unique, list_elem_of_lookup in Hid as [i Hi].
    intros Hnil. apply elem_of_leaf_group in Hi. fold (grp id) in Hi.
    change (grp id = []) in Hnil. rewrite Hnil in Hi.
    by apply not_elem_of_nil in Hi.
  - apply leaf_samples_unfold.
Qed.

(** ** Evidence-fusion utilities *)

Lemma zero_as_one_nonzero (a : list Qc) : Forall (λ w, w ≠ 0) (zero_as_one a).
Proof.
  unfold zero_as_one. apply Forall_fmap, Forall_forall. intros x _. simpl.
  case_bool_decide as Hx; [|done]. intros H1. discriminate H1.
Qed.

(** What [nanavg_vectors] computes in one cell. *)
Lemma nanavg_vectors_lookup (a b : list (option Qc)) (wa wb : list Qc)
    (i : nat) (x y : option Qc) (u w : Qc) :
  a !! i = Some x → b !! i = Some y → wa !! i = Some u → wb !! i = Some w →
  nanavg_vectors a b wa wb !! i
  = Some match x, y with
         | Some p, Some q =>
             Some ((p * u + q * w) / (if bool_decide (u + w = 0) then 1 else u + w))
         | Some p, None => Some p
         | None, _ => y
         end.
Proof.
  intros Ha Hb Hwa Hwb. unfold nanavg_vectors, assign_mask, zero_as_one.
  repeat (rewrite ?lookup_zip_with, ?list_lookup_fmap, ?Ha, ?Hb, ?Hwa, ?Hwb; simpl).
  destruct x as [p|], y as [q|]; reflexivity.
Qed.

(** C9: [nanavg_vectors] works cell by cell.  In cell [i], with [x] and [y]
    the two inputs and [u], [w] their weights: when both are present the
    result is [(x*u + y*w) / d] where the divisor [d] is [u + w] with 0
    replaced by 1, hence the weighted average [(x*u + y*w) / (u + w)]
    whenever [u + w] is not 0; when exactly one is present the result is
    that input, whatever the weights; when neither is present the result is
    NaN.  The divisor array [zero_as_one (wa + wb)] never holds 0, and
    [nanavg_vectors [NaN,2] [5,NaN]] with weights 1 and 1 is [[5,2]]. *)
Theorem nanavg_vectors_elementwise (a b : list (option Qc)) (wa wb : list Qc)
    (i : nat) (x y : option Qc) (u w : Qc) :
  a !! i = Some x → b !! i = Some y → wa !! i = Some u → wb !! i = Some w →
  let c := nanavg_vectors a b wa wb in
  (∀ p q, x = Some p → y = Some q →
     (∃ d, zero_as_one (zip_with Qcplus wa wb) !! i = Some d
           ∧ d ≠ 0 ∧ c !! i = Some (Some ((p * u + q * w) / d)))
     ∧ (u + w ≠ 0 → c !! i = Some (Some ((p * u + q * w) / (u + w)))))
  ∧ (∀ p, x = Some p → y = None → c !! i = Some (Some p))
  ∧ (∀ q, x = None → y = Some q → c !! i = Some (Some q))
  ∧ (x = None → y = None → c !! i = Some None)
  ∧ Forall (λ d, d ≠ 0) (zero_as_one (zip_with Qcplus wa wb))
  ∧ nanavg_vectors [None; Some 2] [Some (Qc_of_Z 5); None] [1; 1] [1; 1]
    = [Some (Qc_of_Z 5); Some 2].
Proof.
  intros Ha Hb Hwa Hwb c. subst c.
  rewrite (nanavg_vectors_lookup a b wa wb i x y u w Ha Hb Hwa Hwb).
  split_and!.
  - intros p q -> ->. split.
    + exists (if bool_decide (u + w = 0) then 1 else u + w). split_and!.
      * unfold zero_as_one. by rewrite list_lookup_fmap, lookup_zip_with, Hwa, Hwb.
      * case_bool_decide as Hz; [|done]. intros H1. discriminate H1.
      * done.
    + intros Hne. by rewrite bool_decide_eq_false_2.
  - by intros p -> ->.
  - by intros q -> ->.
  - by intros -> ->.
  - apply zero_as_one_nonzero.
  - compute_done.
Qed.

Lemma nanavg_vectors_elementwise_witness :
  nanavg_vectors [None; Some 2] [Some (Qc_of_Z 5); None] [1; 1] [1; 1] !! 0%nat
  = Some (Some (Qc_of_Z 5)).
Proof.
  pose proof (nanavg_vectors_elementwise
                [None; Some 2] [Some (Qc_of_Z 5); None] [1; 1] [1; 1]
                0 None (Some (Qc_of_Z 5)) 1 1
                eq_refl eq_refl eq_refl eq_refl) as H.
  simpl in H. destruct H as (_ & _ & H & _). exact (H (Qc_of_Z 5) eq_refl eq_refl).
Defined.

(** ** Continuous stratifier *)

Lemma avg_slopes_at_x_nonparallel_jit_eq uniq_x leaf_ranges leaf_slopes :
  avg_slopes_at_x_nonparallel_jit uniq_x leaf_ranges leaf_slopes
  = avg_slopes_at_x_jit uniq_x leaf_ranges leaf_slopes.
Proof. reflexivity. Qed.

(** C3 (as the code has it): on a leaf with exactly one distinct target
    value [finite_differences] does report the whole leaf as ignored, but
    it returns the one-row range array [[0]] and the one-element slope array
    [0.0], not empty arrays. *)
Theorem finite_differences_single_value (x y : list Qc) :
  length (np.unique Qcle x) = 1%nat →
  finite_differences x y = ([[0]], [0], Z.of_nat (length x))
  ∧ (finite_differences x y).1.1 ≠ []
  ∧ (finite_differences x y).1.2 ≠ [].
Proof.
  intros H. unfold finite_differences. rewrite bool_decide_eq_true_2 by done.
  simpl. done.
Qed.

Lemma finite_differences_single_value_witness :
  finite_differences (qz <$> [5; 5]%Z) (qz <$> [1; 2]%Z) = ([[0]], [0], 2%Z).
Proof.
  refine (proj1 (finite_differences_single_value
                   (qz <$> [5; 5]%Z) (qz <$> [1; 2]%Z) _)).
  vm_compute. reflexivity.
Defined.

Lemma bind_inr_inv {A B} (m : result A) (k : A → result B) (b : B) :
  bind m k = inr b → ∃ a, m = inr a ∧ k a = inr b.
Proof. destruct m as [e|a]; simpl; [done|]. intros H. by exists a. Qed.

(** How the fields of the result of [partial_dependence] are related. *)
Lemma partial_dependence_inv rf X_not_col X_colname y min_slopes_per_x parallel_jit r :
  partial_dependence rf X_not_col X_colname y min_slopes_per_x parallel_jit = inr r →
  let X_col := np.round10 <$> X_colname in
  let real_uniq_x := np.unique Qcle X_col in
  ∃ avg_slope_at_x,
    collect_discrete_slopes rf X_col X_not_col y
    = inr (pd_leaf_xranges r, pd_leaf_slopes r, pd_ignored r)
    ∧ avg_slopes_at_x_jit real_uniq_x (pd_leaf_xranges r) (pd_leaf_slopes r)
      = (avg_slope_at_x, pd_slope_counts_at_x r)
    ∧ pd_slope_at_x r
      = weak_evidence_to_nan
          (if bool_decide (min_slopes_per_x ≤ 0)%Z then 1%Z else min_slopes_per_x)
          (pd_slope_counts_at_x r) avg_slope_at_x
    ∧ integrate real_uniq_x (pd_slope_at_x r) = inr (pd_dx r, pd_pdpx r, pd_pdpy r).
Proof.
  intros H. cbv zeta. unfold partial_dependence in H.
  set (X_col := np.round10 <$> X_colname) in *.
  set (real_uniq_x := np.unique Qcle X_col) in *.
  apply bind_inr_inv in H as ([[xr sl] ig] & Hc & H).
  assert ((if parallel_jit
           then avg_slopes_at_x_jit real_uniq_x xr sl
           else avg_slopes_at_x_nonparallel_jit real_uniq_x xr sl)
          = avg_slopes_at_x_jit real_uniq_x xr sl) as Hj by (by destruct parallel_jit).
  rewrite Hj in H. clear Hj.
  destruct (avg_slopes_at_x_jit real_uniq_x xr sl) as [avg cnt] eqn:Havg.
  apply bind_inr_inv in H as ([[dx px] py] & Hi & H).
  injection H as <-. simpl. exists avg. done.
Qed.

Lemma integrate_example :
  integrate (qz <$> [1; 2; 3; 4]%Z) [Some 1; Some (qz 3); None; None]
  = inr (qz <$> [1; 1; 1]%Z, qz <$> [1; 2; 3]%Z, qz <$> [0; 1; 4]%Z).
Proof. compute_done. Qed.

(** C6: whenever the unique x values are [1,2,3,4] and the aggregated
    slopes are [1, 3, NaN, NaN], the curve returned by [partial_dependence]
    is pdpx = [1,2,3], pdpy = [0,1,4]: x = 4 is dropped. *)
Theorem partial_dependence_two_nans_truncate
    rf X_not_col X_colname y min_slopes_per_x parallel_jit r :
  partial_dependence rf X_not_col X_colname y min_slopes_per_x parallel_jit = inr r →
  np.unique Qcle (np.round10 <$> X_colname) = qz <$> [1; 2; 3; 4]%Z →
  pd_slope_at_x r = [Some 1; Some (qz 3); None; None] →
  pd_pdpx r = qz <$> [1; 2; 3]%Z ∧ pd_pdpy r = qz <$> [0; 1; 4]%Z.
Proof.
  intros H Hx Hs. apply partial_dependence_inv in H as (avg & _ & _ & _ & Hi).
  rewrite Hx, Hs, integrate_example in Hi. by injection Hi as _ <- <-.
Qed.

Lemma partial_dependence_two_nans_truncate_witness :
  match partial_dependence rf_floor ex_X_not_col ex_X_col ex_y 1 true with
  | inr r => pd_pdpx r = qz <$> [1; 2; 3]%Z ∧ pd_pdpy r = qz <$> [0; 1; 4]%Z
  | inl _ => False
  end.
Proof.
  assert (match partial_dependence rf_floor ex_X_not_col ex_X_col ex_y 1 true with
          | inr r => bool_decide (pd_slope_at_x r = [Some 1; Some (qz 3); None; None])
          | inl _ => false
          end = true) as Hs by (vm_compute; reflexivity).
  destruct (partial_dependence rf_floor ex_X_not_col ex_X_col ex_y 1 true)
    as [e|r] eqn:E; [discriminate Hs|].
  apply (partial_dependence_two_nans_truncate _ _ _ _ _ _ r E).
  - apply (bool_decide_unpack _). vm_compute. exact I.
  - by apply (bool_decide_eq_true_1 _).
Defined.

(** *** Leaves are non-empty sets of valid sample indices *)

Lemma leaf_samples_elem (rf : forest) (X_not_col : list (list Qc)) (g : list nat) :
  g ∈ leaf_samples rf X_not_col →
  g ≠ [] ∧ Forall (λ i, i < length X_not_col)%nat g.
Proof.
  rewrite leaf_samples_unfold. intros (t & Hg & _)%list_elem_of_bind.
  unfold leaf_samples_tree in Hg.
  apply list_elem_of_fmap in Hg as (id & -> & Hid).
  set (col := np.column 0%Z t (rf_apply rf X_not_col)) in *.
  assert (length col = length X_not_col) as Hlen.
  { unfold col, np.column, rf_apply. by rewrite !length_fmap. }
  split.
  - apply elem_of_np_unique, list_elem_of_lookup in Hid as [i Hi].
    apply elem_of_leaf_group in Hi. intros Hnil. rewrite Hnil in Hi.
    by apply not_elem_of_nil in Hi.
  - apply Forall_forall. intros i Hi%elem_of_leaf_group%lookup_lt_Some. lia.
Qed.

(** *** [np.min], [np.max], [np.unique] on a leaf *)

Lemma foldl_choose_elem (f : Qc → Qc → Qc) (a : Qc) (t : list Qc) :
  (∀ m x, f m x = m ∨ f m x = x) → foldl f a t ∈ a :: t.
Proof.
  intros Hf. revert a. induction t as [|b t IH]; intros a; simpl; [left|].
  destruct (Hf a b) as [-> | ->].
  - specialize (IH a). apply elem_of_cons in IH as [-> | ?]; [left|].
    by do 2 right.
  - right. apply IH.
Qed.

Lemma np_min_elem (l : list Qc) : l ≠ [] → ∃ m, np.min l = inr m ∧ m ∈ l.
Proof.
  destruct l as [|a t]; [done|]. intros _. eexists. split; [reflexivity|].
  apply foldl_choose_elem. intros m x. case_bool_decide; auto.
Qed.

Lemma np_max_elem (l : list Qc) : l ≠ [] → ∃ m, np.max l = inr m ∧ m ∈ l.
Proof.
  destruct l as [|a t]; [done|]. intros _. eexists. split; [reflexivity|].
  apply foldl_choose_elem. intros m x. case_bool_decide; auto.
Qed.

Lemma np_unique_single {A} (R : relation A) `{!RelDecision R, !EqDecision A}
    (l : list A) (x y : A) :
  length (np.unique R l) = 1%nat → x ∈ l → y ∈ l → x = y.
Proof.
  intros Hlen Hx%(elem_of_np_unique R) Hy%(elem_of_np_unique R).
  destruct (np.unique R l) as [|u [|??]]; simplify_eq/=.
  apply list_elem_of_singleton in Hx, Hy. congruence.
Qed.

Lemma np_pick_elem {A} (d : A) (l : list A) (idx : list nat) (x : A) :
  Forall (λ i, i < length l)%nat idx → x ∈ np.pick d l idx → x ∈ l.
Proof.
  intros Hidx (i & -> & Hi)%list_elem_of_fmap.
  rewrite Forall_forall in Hidx. specialize (Hidx i Hi).
  apply lookup_lt_is_Some in Hidx as [y Hy].
  rewrite (nth_lookup_Some _ _ _ _ Hy). by eapply list_elem_of_lookup_2.
Qed.

(** *** The segments of a leaf *)

Lemma np_diff_length (l : list Qc) : length (np.diff l) = (length l - 1)%nat.
Proof.
  induction l as [|a [|b t] IH]; [done..|].
  change (np.diff (a :: b :: t)) with ((b - a) :: np.diff (b :: t)).
  simpl in *. lia.
Qed.

Lemma finite_differences_segments (x y : list Qc) :
  length (np.unique Qcle x) ≠ 1%nat →
  let '(leaf_xranges, leaf_slopes, ignored) := finite_differences x y in
  Forall (segment_of x) leaf_xranges
  ∧ length leaf_xranges = length leaf_slopes
  ∧ ignored = 0%Z.
Proof.
  intros Hne. unfold finite_differences. rewrite bool_decide_eq_false_2 by done.
  split_and!; [| |done].
  - apply Forall_forall. intros xr (lo & hi & -> & Hlo & Hhi)%elem_of_zip_with.
    exists lo, hi. split_and!; [done| |].
    + by apply (elem_of_np_unique Qcle).
    + apply (elem_of_np_unique Qcle).
      destruct (np.unique Qcle x); [done|]. by right.
  - rewrite !length_zip_with, !np_diff_length, length_fmap.
    assert (length (tail (np.unique Qcle x)) = (length (np.unique Qcle x) - 1)%nat)
      as -> by (destruct (np.unique Qcle x); simpl; lia).
    lia.
Qed.

(** *** The loop of [collect_discrete_slopes] never raises *)

Lemma foldM_invariant {A S} (P : S → Prop) (Q : A → Prop)
    (f : S → A → result S) (s : S) (l : list A) :
  P s → Forall Q l →
  (∀ s a, P s → Q a → ∃ s', f s a = inr s' ∧ P s') →
  ∃ s', foldM f s l = inr s' ∧ P s'.
Proof.
  intros Hs Hl Hf. revert s Hs.
  induction Hl as [|a l Ha Hl IH]; intros s Hs; simpl; [by exists s|].
  destruct (Hf s a Hs Ha) as (s' & -> & Hs'). simpl. by apply IH.
Qed.

Lemma collect_leaf_ok (X_col y : list Qc) st (samples : list nat) :
  samples ≠ [] → Forall (λ i, i < length X_col)%nat samples →
  Forall (segment_of X_col) st.1.2 → length st.1.2 = length st.1.1 →
  ∃ st', collect_leaf X_col y st samples = inr st'
         ∧ Forall (segment_of X_col) st'.1.2 ∧ length st'.1.2 = length st'.1.1.
Proof.
  destruct st as [[sl xr] ig]. simpl. intros Hne Hidx Hxr Hlen.
  unfold collect_leaf.
  set (leaf_x := np.pick 0 X_col samples).
  assert (leaf_x ≠ []) as Hx.
  { unfold leaf_x, np.pick. destruct samples; [done|]. done. }
  destruct (np_min_elem leaf_x Hx) as (lo & -> & Hlo).
  destruct (np_max_elem leaf_x Hx) as (hi & -> & Hhi). simpl.
  case_bool_decide as Hclose.
  { eexists. split; [reflexivity|]. done. }
  assert (length (np.unique Qcle leaf_x) ≠ 1%nat) as Huniq.
  { intros H1. apply Hclose.
    rewrite (np_unique_single Qcle leaf_x lo hi H1 Hlo Hhi).
    replace (hi - hi) with (Q2Qc 0) by ring. done. }
  pose proof (finite_differences_segments leaf_x (np.pick 0 y samples) Huniq) as Hfd.
  destruct (finite_differences leaf_x (np.pick 0 y samples)) as [[xr' sl'] ig'].
  destruct Hfd as (Hseg & Hl & _).
  eexists. split; [reflexivity|]. simpl. split.
  - apply Forall_app. split; [done|].
    eapply Forall_impl; [exact Hseg|]. intros r (a & b & -> & Ha & Hb).
    exists a, b. split_and!; [done|by eapply np_pick_elem..].
  - rewrite !length_app. lia.
Qed.

Lemma collect_discrete_slopes_ok rf (X_col : list Qc) (X_not_col : list (list Qc))
    (y : list Qc) :
  length X_not_col = length X_col →
  ∃ leaf_xranges leaf_slopes ignored,
    collect_discrete_slopes rf X_col X_not_col y
    = inr (leaf_xranges, leaf_slopes, ignored)
    ∧ Forall (segment_of X_col) leaf_xranges
    ∧ length leaf_xranges = length leaf_slopes.
Proof.
  intros Hlen. unfold collect_discrete_slopes.
  destruct (foldM_invariant
              (λ st : list Qc * list (list Qc) * Z,
                 Forall (segment_of X_col) st.1.2 ∧ length st.1.2 = length st.1.1)
              (λ g, g ≠ [] ∧ Forall (λ i, i < length X_col)%nat g)
              (collect_leaf X_col y) ([], [], 0%Z) (leaf_samples rf X_not_col))
    as ([[sl xr] ig] & -> & Hseg & Hl).
  - by split.
  - apply Forall_forall. intros g Hg. rewrite <-Hlen. by apply (leaf_samples_elem rf).
  - intros st g [Hseg Hl] [Hne Hidx]. by apply collect_leaf_ok.
  - simpl. by exists xr, sl, ig.
Qed.

(** *** Aggregation of the slopes at one x *)

Lemma matrix_row_slopes (uniq_x : list Qc) leaf_ranges leaf_slopes (i : nat) (x : Qc) :
  uniq_x !! i = Some x →
  matrix_row (slopes_matrix uniq_x leaf_ranges leaf_slopes) i
  = (λ j, if bool_decide (x < nth 0 (nth j leaf_ranges []) 0)
             || bool_decide (nth 1 (nth j leaf_ranges []) 0 ≤ x)
          then None else Some (nth j leaf_slopes 0)) <$> seq 0 (length leaf_slopes).
Proof.
  intros Hx. unfold matrix_row, slopes_matrix. rewrite <-list_fmap_compose.
  apply list_fmap_ext. intros _ j _. simpl. unfold slope_in_range.
  erewrite nth_lookup_Some; [reflexivity|]. by rewrite list_lookup_fmap, Hx.
Qed.

Lemma count_nan_all (l : list (option Qc)) :
  Forall (λ a, a = None) l → np.count_nan l = length l.
Proof.
  unfold np.count_nan. induction 1 as [|a l -> _ IH]; [done|].
  rewrite filter_cons_True by done. simpl. by rewrite IH.
Qed.

Lemma avg_slopes_at_x_jit_lookup (uniq_x : list Qc) leaf_ranges leaf_slopes (i : nat) :
  (i < length uniq_x)%nat →
  let row := matrix_row (slopes_matrix uniq_x leaf_ranges leaf_slopes) i in
  (avg_slopes_at_x_jit uniq_x leaf_ranges leaf_slopes).1 !! i
  = Some (if bool_decide (np.count_nan row = length leaf_slopes) then None
          else Some (np.nanmean row))
  ∧ (avg_slopes_at_x_jit uniq_x leaf_ranges leaf_slopes).2 !! i
    = Some (Z.of_nat (length leaf_slopes) - Z.of_nat (np.count_nan row))%Z.
Proof.
  intros Hi row. unfold avg_slopes_at_x_jit. simpl.
  rewrite !list_lookup_fmap, !lookup_seq_lt by done. done.
Qed.

Lemma avg_slopes_at_x_jit_length (uniq_x : list Qc) leaf_ranges leaf_slopes :
  length (avg_slopes_at_x_jit uniq_x leaf_ranges leaf_slopes).1 = length uniq_x
  ∧ length (avg_slopes_at_x_jit uniq_x leaf_ranges leaf_slopes).2 = length uniq_x.
Proof. unfold avg_slopes_at_x_jit. simpl. by rewrite !length_fmap, !length_seq. Qed.

(** An x covered by no segment gets NaN and a count of 0. *)
Lemma avg_slopes_uncovered (uniq_x : list Qc) leaf_ranges leaf_slopes (i : nat) (x : Qc) :
  uniq_x !! i = Some x →
  (∀ j, (j < length leaf_slopes)%nat → ¬ in_xrange (nth j leaf_ranges []) x) →
  (avg_slopes_at_x_jit uniq_x leaf_ranges leaf_slopes).1 !! i = Some None
  ∧ (avg_slopes_at_x_jit uniq_x leaf_ranges leaf_slopes).2 !! i = Some 0%Z.
Proof.
  intros Hx Hno.
  destruct (avg_slopes_at_x_jit_lookup uniq_x leaf_ranges leaf_slopes i) as [-> ->].
  { by eapply lookup_lt_Some. }
  rewrite (matrix_row_slopes _ _ _ _ _ Hx).
  rewrite count_nan_all.
  - rewrite length_fmap, length_seq, bool_decide_eq_true_2 by done.
    split; [done|]. f_equal. lia.
  - apply Forall_fmap, Forall_forall. intros j [_ Hj]%elem_of_seq. simpl.
    destruct (bool_decide (x < _)) eqn:E1; [done|].
    destruct (bool_decide (_ ≤ x)) eqn:E2; [done|]. exfalso.
    apply bool_decide_eq_false in E1, E2. apply (Hno j); [lia|]. split.
    + by apply Qcnot_lt_le.
    + by apply Qcnot_le_lt.
Qed.

(** Thresholding keeps NaN cells and the length. *)
Lemma weak_evidence_to_nan_lookup m counts slopes (i : nat) (c : Z) s :
  counts !! i = Some c → slopes !! i = Some s →
  weak_evidence_to_nan m counts slopes !! i
  = Some (if bool_decide (m ≤ c)%Z then s else None).
Proof.
  intros Hc Hs. unfold weak_evidence_to_nan. by rewrite lookup_zip_with, Hc; simpl; rewrite Hs.
Qed.

Lemma sorted_last_max (l : list Qc) (m x : Qc) :
  StronglySorted Qcle l → last l = Some m → x ∈ l → x ≤ m.
Proof.
  intros Hs [l' ->]%last_Some [Hx | Hx%list_elem_of_singleton]%elem_of_app.
  - eapply (StronglySorted_app_1_elem_of Qcle); [done..|]. by left.
  - subst. apply Qcle_refl.
Qed.

(** At the largest observed x no segment of the collected leaves is open:
    every segment ends at an observed value. *)
Lemma collected_segments_end_before_max rf X_col X_not_col y xr sl ig (x_max : Qc) :
  length X_not_col = length X_col →
  collect_discrete_slopes rf X_col X_not_col y = inr (xr, sl, ig) →
  last (np.unique Qcle X_col) = Some x_max →
  ∀ j, (j < length sl)%nat → ¬ in_xrange (nth j xr []) x_max.
Proof.
  intros Hlen Hc Hlast j Hj.
  destruct (collect_discrete_slopes_ok rf X_col X_not_col y Hlen)
    as (xr' & sl' & ig' & Hc' & Hseg & Hl).
  rewrite Hc in Hc'. injection Hc' as <- <- <-.
  rewrite <-Hl in Hj. apply lookup_lt_is_Some in Hj as [r Hr].
  rewrite (nth_lookup_Some _ _ _ _ Hr).
  rewrite Forall_forall in Hseg.
  destruct (Hseg r) as (lo & hi & -> & _ & Hhi); [by eapply list_elem_of_lookup_2|].
  intros [_ Hlt]. simpl in Hlt. apply (Qclt_not_le _ _ Hlt).
  apply (sorted_last_max (np.unique Qcle X_col)); [|done|].
  - apply np_unique_sorted; [apply _|apply _].
  - by apply (elem_of_np_unique Qcle).
Qed.

(** C7: in both aggregation functions, a unique x value that lies in no
    segment's half-open interval [[x_lo, x_hi)] gets NaN (not 0) as its
    aggregated slope and 0 as its count of contributing segments.  For the
    segments that [collect_discrete_slopes] builds from the data, the
    largest unique x is such a value, so its aggregated slope is NaN with
    count 0, and so is the last entry of the [slope_at_x] that
    [partial_dependence] returns. *)
Theorem avg_slopes_no_evidence :
  (∀ (uniq_x : list Qc) leaf_ranges leaf_slopes (i : nat) (x : Qc),
     uniq_x !! i = Some x →
     (∀ j, (j < length leaf_slopes)%nat → ¬ in_xrange (nth j leaf_ranges []) x) →
     (avg_slopes_at_x_jit uniq_x leaf_ranges leaf_slopes).1 !! i = Some None
     ∧ (avg_slopes_at_x_jit uniq_x leaf_ranges leaf_slopes).2 !! i = Some 0%Z
     ∧ (avg_slopes_at_x_nonparallel_jit uniq_x leaf_ranges leaf_slopes).1 !! i = Some None
     ∧ (avg_slopes_at_x_nonparallel_jit uniq_x leaf_ranges leaf_slopes).2 !! i = Some 0%Z)
  ∧ (∀ rf X_col X_not_col y leaf_xranges leaf_slopes ignored (x_max : Qc),
       length X_not_col = length X_col →
       collect_discrete_slopes rf X_col X_not_col y
       = inr (leaf_xranges, leaf_slopes, ignored) →
       let real_uniq_x := np.unique Qcle X_col in
       last real_uniq_x = Some x_max →
       last (avg_slopes_at_x_jit real_uniq_x leaf_xranges leaf_slopes).1 = Some None
       ∧ last (avg_slopes_at_x_jit real_uniq_x leaf_xranges leaf_slopes).2 = Some 0%Z
       ∧ last (avg_slopes_at_x_nonparallel_jit real_uniq_x leaf_xranges leaf_slopes).1
         = Some None
       ∧ last (avg_slopes_at_x_nonparallel_jit real_uniq_x leaf_xranges leaf_slopes).2
         = Some 0%Z)
  ∧ (∀ rf X_not_col X_colname y min_slopes_per_x parallel_jit r,
       length X_not_col = length X_colname →
       partial_dependence rf X_not_col X_colname y min_slopes_per_x parallel_jit = inr r →
       last (pd_slope_at_x r) = Some None
       ∧ last (pd_slope_counts_at_x r) = Some 0%Z).
Proof.
  assert (∀ rf X_col X_not_col y xr sl ig (x_max : Qc),
            length X_not_col = length X_col →
            collect_discrete_slopes rf X_col X_not_col y = inr (xr, sl, ig) →
            last (np.unique Qcle X_col) = Some x_max →
            last (avg_slopes_at_x_jit (np.unique Qcle X_col) xr sl).1 = Some None
            ∧ last (avg_slopes_at_x_jit (np.unique Qcle X_col) xr sl).2 = Some 0%Z)
    as Hlast.
  { intros rf X_col X_not_col y xr sl ig x_max Hlen Hc Hl.
    rewrite !last_lookup.
    destruct (avg_slopes_at_x_jit_length (np.unique Qcle X_col) xr sl) as [-> ->].
    pose proof Hl as Hl'. rewrite last_lookup in Hl'.
    apply (avg_slopes_uncovered _ _ _ _ _ Hl').
    by eapply collected_segments_end_before_max. }
  split_and!.
  - intros uniq_x leaf_ranges leaf_slopes i x Hx Hno.
    destruct (avg_slopes_uncovered _ _ _ _ _ Hx Hno) as [H1 H2].
    split_and!; [exact H1 | exact H2 | exact H1 | exact H2].
  - intros rf X_col X_not_col y xr sl ig x_max Hlen Hc real_uniq_x Hl.
    destruct (Hlast _ _ _ _ _ _ _ _ Hlen Hc Hl) as [H1 H2].
    split_and!; [exact H1 | exact H2 | exact H1 | exact H2].
  - intros rf X_not_col X_colname y m pj r Hlen Hpd.
    apply partial_dependence_inv in Hpd as (avg & Hc & Havg & Hs & Hi).
    set (X_col := np.round10 <$> X_colname) in *.
    assert (length X_not_col = length X_col) as Hlen'.
    { unfold X_col. by rewrite length_fmap. }
    destruct (last (np.unique Qcle X_col)) as [x_max|] eqn:Hl.
    + destruct (Hlast _ _ _ _ _ _ _ _ Hlen' Hc Hl) as [H1 H2].
      rewrite last_lookup in H1. rewrite last_lookup in H2.
      pose proof (avg_slopes_at_x_jit_length (np.unique Qcle X_col)
                    (pd_leaf_xranges r) (pd_leaf_slopes r)) as [L1 L2].
      rewrite L1 in H1. rewrite L2 in H2.
      rewrite Havg in H1, H2, L1, L2. cbn [fst snd] in H1, H2, L1, L2.
      split.
      * rewrite last_lookup, Hs. unfold weak_evidence_to_nan at 1.
        rewrite length_zip_with, L1, L2, Nat.min_id.
        rewrite (weak_evidence_to_nan_lookup _ _ _ _ _ _ H2 H1).
        f_equal. by repeat case_match.
      * rewrite last_lookup, L2. exact H2.
    + apply last_None in Hl.
      pose proof (avg_slopes_at_x_jit_length (np.unique Qcle X_col)
                    (pd_leaf_xranges r) (pd_leaf_slopes r)) as [L1 L2].
      rewrite Havg, Hl in L1, L2. simpl in L1, L2.
      apply nil_length_inv in L1. subst avg.
      rewrite Hs in Hi. unfold weak_evidence_to_nan in Hi.
      rewrite zip_with_nil_r in Hi. unfold integrate in Hi. simpl in Hi.
      discriminate Hi.
Qed.

Lemma avg_slopes_no_evidence_witness :
  (avg_slopes_at_x_jit (qz <$> [1; 2; 3; 4]%Z)
     [qz <$> [1; 2]%Z; qz <$> [2; 3]%Z] (qz <$> [1; 3]%Z)).1 !! 2%nat = Some None.
Proof.
  refine (proj1 (proj1 avg_slopes_no_evidence
                   (qz <$> [1; 2; 3; 4]%Z)
                   [qz <$> [1; 2]%Z; qz <$> [2; 3]%Z] (qz <$> [1; 3]%Z)
                   2%nat (qz 3) eq_refl _)).
  intros [|[|j]] Hj; [| |simpl in Hj; lia].
  - intros [_ H]. revert H. apply (bool_decide_unpack _). vm_compute. exact I.
  - intros [_ H]. revert H. apply (bool_decide_unpack _). vm_compute. exact I.
Defined.

(** *** Integration *)

(** The first position that [np.where] reports is the first [True] cell. *)
Lemma np_where_from_head (mask : list bool) (i p : nat) :
  head (np.where_from i mask) = Some p →
  ∃ k, p = (i + k)%nat ∧ mask !! k = Some true
       ∧ ∀ j, (j < k)%nat → mask !! j = Some false.
Proof.
  revert i. induction mask as [|b m IH]; intros i; simpl; [done|].
  destruct b; simpl.
  - intros [= <-]. exists 0%nat. split_and!; [lia | done | lia].
  - intros (k & -> & Hk & Hlt)%IH. exists (S k). split_and!; [lia | done |].
    intros [|j] Hj; [done|]. simpl. apply Hlt. lia.
Qed.

(** A running sum over cells that are all NaN stays where it started. *)
Lemma nancumsum_from_nan_prefix (acc : Qc) (l : list (option Qc)) (k : nat) :
  (∀ j v, (j ≤ k)%nat → l !! j ≠ Some (Some v)) →
  nth k (np.nancumsum_from acc l) acc = acc.
Proof.
  revert acc k. induction l as [|d t IH]; intros acc k Hnan; simpl.
  - by destruct k.
  - assert (d = None) as ->.
    { destruct d as [v|]; [|done]. by destruct (Hnan 0%nat v (Nat.le_0_l k)). }
    simpl. rewrite Qcplus_0_r. destruct k as [|k]; [done|].
    apply IH. intros j v Hj. apply (Hnan (S j) v). lia.
Qed.

Lemma integrate_first_zero (pdpx : list Qc) (slope_at_x : list (option Qc)) dx px py :
  integrate pdpx slope_at_x = inr (dx, px, py) →
  length px = length py ∧ (px ≠ [] → head py = Some 0).
Proof.
  unfold integrate. destruct slope_at_x as [|s0 s]; [done|].
  cbn [bind ret]. intros [= <- <- <-]. split.
  { unfold np.pick. by rewrite !length_fmap. }
  set (mask := zip_with _ _ _).
  destruct s0 as [v|]; simpl negb; cbv iota; [done|].
  unfold np.pick. intros Hne.
  destruct (np.where_ mask) as [|p ps] eqn:Hw; [done|]. clear Hne.
  assert (head (np.where_from 0 mask) = Some p) as Hp by (unfold np.where_ in Hw; by rewrite Hw).
  apply np_where_from_head in Hp as (k & -> & Hk & Hlt). simpl.
  f_equal. apply nancumsum_from_nan_prefix.
  assert (∀ j, (j ≤ k)%nat → (None :: s) !! j = Some None) as Hpre.
  { intros j. induction j as [|j IHj]; intros Hj; [done|].
    specialize (Hlt j ltac:(lia)). unfold mask in Hlt.
    apply lookup_zip_with_Some in Hlt as (a & b & Hab & Ha & Hb).
    simpl in Ha |- *. rewrite Ha. destruct a; [|done]. done. }
  intros j v Hj Hy.
  apply lookup_zip_with_Some in Hy as (a & d & Hv & Ha & _).
  unfold np.init in Ha. apply lookup_take_Some in Ha as [Ha _].
  rewrite (Hpre j Hj) in Ha. injection Ha as <-. done.
Qed.

(** C2: whenever [partial_dependence] returns a non-empty curve, the y
    value at its first x is exactly 0 (the two arrays have the same
    length, so the first y belongs to the first retained x). *)
Theorem partial_dependence_first_y_zero
    rf X_not_col X_colname y min_slopes_per_x parallel_jit r :
  partial_dependence rf X_not_col X_colname y min_slopes_per_x parallel_jit = inr r →
  pd_pdpx r ≠ [] →
  length (pd_pdpy r) = length (pd_pdpx r) ∧ head (pd_pdpy r) = Some 0.
Proof.
  intros H Hne. apply partial_dependence_inv in H as (avg & _ & _ & _ & Hi).
  apply integrate_first_zero in Hi as [Hlen H0]. auto.
Qed.

Lemma partial_dependence_first_y_zero_witness :
  match partial_dependence rf_floor ex2_X_not_col ex2_X_col ex2_y 2 true with
  | inr r => pd_pdpx r = qz <$> [2; 3]%Z ∧ head (pd_pdpy r) = Some 0
  | inl _ => False
  end.
Proof.
  assert (match partial_dependence rf_floor ex2_X_not_col ex2_X_col ex2_y 2 true with
          | inr r => bool_decide (pd_pdpx r = qz <$> [2; 3]%Z)
          | inl _ => false
          end = true) as Hx by (vm_compute; reflexivity).
  destruct (partial_dependence rf_floor ex2_X_not_col ex2_X_col ex2_y 2 true)
    as [e|r] eqn:E; [discriminate Hx|].
  apply (bool_decide_eq_true_1 _) in Hx. split; [done|].
  apply (partial_dependence_first_y_zero _ _ _ _ _ _ r E).
  by rewrite Hx.
Defined.

(** *** [partial_dependence] returns on every non-empty sample table *)

Lemma partial_dependence_parallel_jit rf X_not_col X_colname y min_slopes_per_x pj :
  partial_dependence rf X_not_col X_colname y min_slopes_per_x pj
  = partial_dependence rf X_not_col X_colname y min_slopes_per_x true.
Proof. destruct pj; reflexivity. Qed.

Lemma integrate_ok (pdpx : list Qc) (slope_at_x : list (option Qc)) :
  slope_at_x ≠ [] → ∃ res, integrate pdpx slope_at_x = inr res.
Proof. destruct slope_at_x as [|s0 s]; [done|]. intros _. unfold integrate. simpl. eauto. Qed.

Lemma partial_dependence_ok rf X_not_col X_colname y min_slopes_per_x parallel_jit :
  length X_not_col = length X_colname → X_colname ≠ [] →
  ∃ r, partial_dependence rf X_not_col X_colname y min_slopes_per_x parallel_jit = inr r.
Proof.
  intros Hlen Hne. unfold partial_dependence.
  set (X_col := np.round10 <$> X_colname).
  assert (length X_not_col = length X_col) as Hlen'.
  { unfold X_col. by rewrite length_fmap. }
  destruct (collect_discrete_slopes_ok rf X_col X_not_col y Hlen')
    as (xr & sl & ig & -> & _ & _). cbn [bind].
  assert ((if parallel_jit
           then avg_slopes_at_x_jit (np.unique Qcle X_col) xr sl
           else avg_slopes_at_x_nonparallel_jit (np.unique Qcle X_col) xr sl)
          = avg_slopes_at_x_jit (np.unique Qcle X_col) xr sl) as -> by (by destruct parallel_jit).
  pose proof (avg_slopes_at_x_jit_length (np.unique Qcle X_col) xr sl) as [L1 L2].
  destruct (avg_slopes_at_x_jit (np.unique Qcle X_col) xr sl) as [avg cnt].
  simpl in L1, L2.
  match goal with |- context [integrate ?p ?s] => destruct (integrate_ok p s) as [[[dx px] py] ->] end.
  - intros Hnil%(f_equal length). unfold weak_evidence_to_nan in Hnil.
    rewrite length_zip_with, L1, L2, Nat.min_id in Hnil. simpl in Hnil.
    apply nil_length_inv, np_unique_nil_inv in Hnil.
    unfold X_col in Hnil. by apply fmap_nil_inv in Hnil.
  - simpl. eauto.
Qed.

(** *** A curve without evidence is empty *)

Lemma np_where_from_all_false (mask : list bool) (i : nat) :
  Forall (λ b, b = false) mask → np.where_from i mask = [].
Proof.
  intros H. revert i. induction H as [|b m -> _ IH]; intros i; simpl; [done|]. apply IH.
Qed.

Lemma integrate_all_nan (pdpx : list Qc) (slope_at_x : list (option Qc)) dx px py :
  Forall (λ s, s = None) slope_at_x →
  integrate pdpx slope_at_x = inr (dx, px, py) → px = [] ∧ py = [].
Proof.
  intros Hnan. unfold integrate. destruct slope_at_x as [|s0 s]; [done|].
  cbn [bind ret]. apply Forall_cons in Hnan as [-> Hs]. simpl negb. cbv iota.
  unfold np.where_. rewrite np_where_from_all_false.
  - by intros [= _ <- <-].
  - apply Forall_forall. intros b (x & z & -> & Hx & Hz)%elem_of_zip_with.
    assert (Forall (λ s, s = None) (None :: s)) as Hall by (by constructor).
    rewrite Forall_forall in Hall.
    rewrite (Hall x) by (by right). rewrite (Hall z); [done|].
    unfold np.init in Hz. apply elem_of_take in Hz as (i & Hi & _).
    by eapply list_elem_of_lookup_2.
Qed.

Lemma weak_evidence_all_nan (m : Z) (counts : list Z) (slopes : list (option Qc)) :
  Forall (λ c, c < m)%Z counts →
  Forall (λ s, s = None) (weak_evidence_to_nan m counts slopes).
Proof.
  intros H. apply Forall_forall.
  intros s (c & x & -> & Hc & _)%elem_of_zip_with.
  rewrite Forall_forall in H. specialize (H c Hc).
  by rewrite bool_decide_eq_false_2 by lia.
Qed.

Lemma avg_pd_curve_empty : avg_pd_curve 1 [[]] [[]] = ([], []).
Proof. reflexivity. Qed.

(** C4 as stated fails: with [min_slopes_per_x = 2] above the slope count
    at every unique x, [partial_dependence] does not raise; it returns, and
    the curve it returns has empty [pdpx] and [pdpy]. *)
Lemma partial_dependence_returns_empty_curve :
  match partial_dependence rf_floor ex_X_not_col ex_X_col ex_y 2 true with
  | inr r =>
      Forall (λ c, (c < 2)%Z) (pd_slope_counts_at_x r)
      ∧ pd_pdpx r = [] ∧ pd_pdpy r = []
  | inl _ => False
  end.
Proof. vm_compute. split_and!; [repeat constructor | done | done]. Qed.

(** C4, amended: on a non-empty sample table [partial_dependence] always
    returns.  When [min_slopes_per_x] exceeds the slope count at every
    unique x, the curve it returns is empty ([pdpx = pdpy = []]); the
    failure is raised one level up, by [plot_stratpd], which ends in an
    exception and returns no curve: the explicit [ValueError] of its
    [len(pdpy)==0] test whenever [compute_importance] returns. *)
Theorem partial_dependence_weak_evidence
    (compute_importance : list Qc → list Qc → list Qc → result (Qc * Qc))
    rf X_not_col X_colname y min_slopes_per_x parallel_jit :
  length X_not_col = length X_colname → X_colname ≠ [] →
  ∃ r, partial_dependence rf X_not_col X_colname y min_slopes_per_x parallel_jit = inr r
       ∧ (Forall (λ c, (c < min_slopes_per_x)%Z) (pd_slope_counts_at_x r) →
          pd_pdpx r = [] ∧ pd_pdpy r = []
          ∧ (∃ e, plot_stratpd compute_importance rf X_not_col X_colname y
                    min_slopes_per_x = inl e)
          ∧ (∀ imp, compute_importance (np.round10 <$> X_colname) [] [] = inr imp →
               plot_stratpd compute_importance rf X_not_col X_colname y
                 min_slopes_per_x = inl ValueError)).
Proof.
  intros Hlen Hne.
  destruct (partial_dependence_ok rf X_not_col X_colname y min_slopes_per_x
              parallel_jit Hlen Hne) as [r Hr].
  exists r. split; [done|]. intros Hweak.
  pose proof Hr as Hinv. apply partial_dependence_inv in Hinv as (avg & _ & _ & Hs & Hi).
  assert (pd_pdpx r = [] ∧ pd_pdpy r = []) as [Hx Hy].
  { eapply integrate_all_nan; [|exact Hi]. rewrite Hs.
    apply weak_evidence_all_nan. eapply Forall_impl; [exact Hweak|].
    intros c Hc. simpl in Hc. case_bool_decide; lia. }
  rewrite partial_dependence_parallel_jit in Hr.
  split_and!; [done | done | |].
  - unfold plot_stratpd. rewrite Hr. cbn [bind]. rewrite Hx, Hy.
    destruct (compute_importance _ [] []) as [e|imp]; cbn [bind]; [by exists e|].
    rewrite avg_pd_curve_empty. by exists ValueError.
  - intros imp Himp. unfold plot_stratpd. rewrite Hr. cbn [bind].
    rewrite Hx, Hy, Himp. cbn [bind]. by rewrite avg_pd_curve_empty.
Qed.

Lemma partial_dependence_weak_evidence_witness :
  plot_stratpd (λ _ _ _, ret (0, 0)) rf_floor ex_X_not_col ex_X_col ex_y 2
  = inl ValueError.
Proof.
  destruct (partial_dependence_weak_evidence (λ _ _ _, ret (0, 0))
              rf_floor ex_X_not_col ex_X_col ex_y 2 true)
    as (r & E & H); [reflexivity | discriminate |].
  vm_compute in E. injection E as <-.
  destruct H as (_ & _ & _ & H); [repeat constructor|].
  exact (H (0, 0) eq_refl).
Defined.

(** ** Categorical stratifier *)

(** *** [catwise_leaves] produces positive weights under its deltas *)

Lemma np_scatter_weights_cover (idx : list Z) :
  ∀ (a : list (option Qc)) (b : list Z) (vals1 : list (option Qc)) (vals2 : list Z) a' b',
    weights_cover a b → length vals1 = length vals2 →
    Forall (λ c, 0 < c)%Z vals2 →
    np.scatter a idx vals1 = inr a' → np.scatter b idx vals2 = inr b' →
    weights_cover a' b'.
Proof.
  induction idx as [|c idx IH]; intros a b vals1 vals2 a' b' Hab Hlen Hpos Ha Hb.
  - simpl in Ha, Hb. by simplify_eq.
  - destruct vals1 as [|v1 vals1], vals2 as [|v2 vals2]; simplify_eq/=; [done|].
    destruct Hab as [Lab Hab]. rewrite Lab in Hb.
    destruct (np.index (length a) c) as [e|i]; [done|].
    apply Forall_cons in Hpos as [Hv2 Hpos].
    apply (IH (<[i:=v1]> a) (<[i:=v2]> b) vals1 vals2 a' b'); [|lia|done|exact Ha|exact Hb].
    split; [by rewrite !length_insert|].
    intros k d wk Hk Hwk. destruct (decide (k = i)) as [->|Hne].
    + assert (i < length b)%nat as Hi.
      { pose proof (lookup_lt_Some _ _ _ Hwk) as Hlt. by rewrite length_insert in Hlt. }
      rewrite (list_lookup_insert_eq b i v2 Hi) in Hwk. by simplify_eq.
    + rewrite list_lookup_insert_ne in Hk by done.
      rewrite list_lookup_insert_ne in Hwk by done. by eapply Hab.
Qed.

Lemma np_unique_counts_pos (l : list Z) :
  length (np.unique_counts l) = length (np.unique Z.le l)
  ∧ Forall (λ c, 0 < c)%Z (np.unique_counts l).
Proof.
  unfold np.unique_counts. split; [by rewrite length_fmap|].
  apply Forall_fmap, Forall_forall. intros u Hu. apply (proj1 (elem_of_np_unique Z.le l u)) in Hu. simpl.
  assert (u ∈ filter (λ c, c = u) l) as Hin by (apply list_elem_of_filter; by split).
  destruct (filter (λ c, c = u) l); [by apply not_elem_of_nil in Hin|]. simpl. lia.
Qed.

Lemma catwise_leaf_weights_cover ncats X_col y sample deltas counts keep ign :
  catwise_leaf ncats X_col y sample = inr (deltas, counts, keep, ign) →
  weights_cover deltas counts.
Proof.
  unfold catwise_leaf. case_bool_decide as Hfew.
  - intros [= <- <- _ _]. split; [by rewrite !length_replicate|].
    intros k d wk [Hd _]%lookup_replicate_1. done.
  - intros H. apply bind_inr_inv in H as (ds & Hds & H).
    apply bind_inr_inv in H as (cs & Hcs & H). injection H as <- <- _ _.
    destruct (np_unique_counts_pos (np.pick 0%Z X_col sample)) as [Lc Hc].
    eapply np_scatter_weights_cover; [| |exact Hc|exact Hds|exact Hcs].
    + split; [by rewrite !length_replicate|].
      intros k d wk [Hd _]%lookup_replicate_1. done.
    + by rewrite !length_fmap, Lc.
Qed.

Lemma foldM_inr_invariant {A S} (P : S → Prop) (f : S → A → result S)
    (l : list A) (s s' : S) :
  (∀ s a s', P s → f s a = inr s' → P s') →
  P s → foldM f s l = inr s' → P s'.
Proof.
  intros Hf. revert s. induction l as [|a l IH]; intros s Hs; simpl.
  - by intros [= <-].
  - intros (s1 & H1 & H2)%bind_inr_inv. eapply IH; [|exact H2]. by eapply Hf.
Qed.

(** Every column pair that [catwise_leaves] returns satisfies the
    invariant that the merge relies on. *)
Lemma catwise_leaves_weights_cover rf X_not_col X_col y max_catcode
    leaf_deltas leaf_counts ignored :
  catwise_leaves rf X_not_col X_col y max_catcode
  = inr (leaf_deltas, leaf_counts, ignored) →
  Forall2 weights_cover leaf_deltas leaf_counts.
Proof.
  unfold catwise_leaves. case_bool_decide as Hneg; [done|].
  intros (cols & Hcols & H)%bind_inr_inv. injection H as <- <- _.
  assert (Forall (λ c : list (option Qc) * list Z * bool * Z,
                    weights_cover c.1.1.1 c.1.1.2) cols) as Hall.
  { eapply (foldM_inr_invariant
              (Forall (λ c : list (option Qc) * list Z * bool * Z,
                         weights_cover c.1.1.1 c.1.1.2))); [|constructor|exact Hcols].
    intros acc sample acc' Hacc (c & Hc & [= <-])%bind_inr_inv.
    apply Forall_app. split; [done|]. constructor; [|constructor].
    destruct c as [[[d w] k] i]. by eapply catwise_leaf_weights_cover. }
  clear Hcols. induction Hall as [|c cols Hc _ IH]; [constructor|].
  destruct c as [[[d w] [|]] i]; simpl in *; [by constructor | done].
Qed.

(** *** [np.argmax] *)

Lemma np_argmax_from_spec (l : list Z) (bi i : nat) (b : Z) :
  (bi < i)%nat →
  ∃ v, (np.argmax_from bi b i l = bi ∧ v = b
        ∨ ∃ k, np.argmax_from bi b i l = (i + k)%nat ∧ l !! k = Some v)
       ∧ (b ≤ v)%Z ∧ ∀ k x, l !! k = Some x → (x ≤ v)%Z.
Proof.
  revert bi i b. induction l as [|a t IH]; intros bi i b Hlt; simpl.
  - exists b. split_and!; [by left | lia | by intros k x].
  - case_bool_decide as Hba.
    + destruct (IH i (S i) a ltac:(lia)) as (v & Hr & Hav & Hmax).
      exists v. split_and!.
      * right. destruct Hr as [[-> ->] | (k & -> & Hk)].
        -- exists 0%nat. split; [lia | done].
        -- exists (S k). split; [lia | done].
      * lia.
      * intros [|k] x Hx; simpl in Hx; [injection Hx as <-; lia | by eapply Hmax].
    + destruct (IH bi (S i) b ltac:(lia)) as (v & Hr & Hbv & Hmax).
      exists v. split_and!.
      * destruct Hr as [[-> ->] | (k & -> & Hk)]; [by left|].
        right. exists (S k). split; [lia | done].
      * done.
      * intros [|k] x Hx; simpl in Hx; [injection Hx as <-; lia | by eapply Hmax].
Qed.

Lemma np_argmax_spec (l : list Z) :
  l ≠ [] →
  ∃ v, l !! np.argmax l = Some v ∧ ∀ k x, l !! k = Some x → (x ≤ v)%Z.
Proof.
  destruct l as [|a t]; [done|]. intros _. unfold np.argmax.
  destruct (np_argmax_from_spec t 0 1 a ltac:(lia)) as (v & Hr & Hav & Hmax).
  exists v. split.
  - destruct Hr as [[-> ->] | (k & -> & Hk)]; done.
  - intros [|k] x Hx; simpl in Hx; [injection Hx as <-; lia | by eapply Hmax].
Qed.

(** *** The anchor of a merge *)

Lemma are_intersecting_lookup (catavg v : list (option Qc)) (k : nat) :
  are_intersecting catavg v !! k = Some true
  ↔ ∃ a d, catavg !! k = Some (Some a) ∧ v !! k = Some (Some d).
Proof.
  unfold are_intersecting. rewrite lookup_zip_with_Some. split.
  - intros (x & y & Hxy & Hx & Hy). destruct x as [a|], y as [d|]; try done. eauto.
  - intros (a & d & Ha & Hd). by exists (Some a), (Some d).
Qed.

(** The weights that [merge_anchor] feeds to [np.argmax]: on a category
    of the intersection the leaf's own weight, when the leaf's weights are
    positive wherever it has a delta. *)
Lemma masked_weight_lookup (catavg v : list (option Qc)) (cur_weight : list Z) (k : nat) :
  length cur_weight = length v →
  (∀ k d w, v !! k = Some (Some d) → cur_weight !! k = Some w → (0 < w)%Z) →
  are_intersecting catavg v !! k = Some true →
  ∃ w, cur_weight !! k = Some w ∧ (0 < w)%Z
       ∧ zip_with (λ w i, if bool_decide (0 < w)%Z && i then w else 0%Z)
           cur_weight (are_intersecting catavg v) !! k = Some w.
Proof.
  intros Hlen Hpos Hk. pose proof Hk as (a & d & Ha & Hd)%are_intersecting_lookup.
  destruct (lookup_lt_is_Some_2 cur_weight k) as [w Hw].
  { rewrite Hlen. by eapply lookup_lt_Some. }
  exists w. split_and!; [done | by eapply Hpos |].
  rewrite lookup_zip_with, Hw. simpl. rewrite Hk. simpl.
  rewrite bool_decide_eq_true_2 by (by eapply Hpos). done.
Qed.

Lemma merge_anchor_in_intersection (catavg v : list (option Qc)) (cur_weight : list Z) :
  length cur_weight = length v →
  np.where_ (are_intersecting catavg v) ≠ [] →
  (∀ k d w, v !! k = Some (Some d) → cur_weight !! k = Some w → (0 < w)%Z) →
  ∃ a d w,
    catavg !! merge_anchor catavg v cur_weight = Some (Some a)
    ∧ v !! merge_anchor catavg v cur_weight = Some (Some d)
    ∧ cur_weight !! merge_anchor catavg v cur_weight = Some w ∧ (0 < w)%Z
    ∧ ∀ k x, zip_with (λ w i, if bool_decide (0 < w)%Z && i then w else 0%Z)
               cur_weight (are_intersecting catavg v) !! k = Some x → (x ≤ w)%Z.
Proof.
  intros Hlen Hne Hpos. unfold merge_anchor.
  set (inter := are_intersecting catavg v) in *.
  set (masked := zip_with _ cur_weight inter).
  destruct (np.where_ inter) as [|k0 ks] eqn:Hw; [done|].
  assert (inter !! k0 = Some true) as Hk0.
  { apply elem_of_np_where. rewrite Hw. left. }
  destruct (masked_weight_lookup catavg v cur_weight k0 Hlen Hpos Hk0)
    as (w0 & Hw0 & Hw0pos & Hm0).
  fold inter in Hm0. fold masked in Hm0.
  destruct (np_argmax_spec masked) as (vmax & Hix & Hmax).
  { intros Hnil. by rewrite Hnil in Hm0. }
  set (ix := np.argmax masked) in *.
  pose proof (Hmax k0 w0 Hm0) as Hge.
  unfold masked in Hix. apply lookup_zip_with_Some in Hix as (w & b & Hv & Hwix & Hbix).
  destruct (bool_decide (0 < w)%Z) eqn:Hwpos, b; simpl in Hv; try lia.
  subst vmax. pose proof Hbix as (a & d & Ha & Hd)%are_intersecting_lookup.
  exists a, d, w. split_and!; [done | done | done | lia | done].
Qed.

(** C8: in a merge step whose intersection is not empty, and for a leaf
    whose weight is positive wherever it has a delta (a CatWeight counts the
    samples behind a CatDelta; [catwise_leaves] returns such columns, see
    [catwise_leaves_weights_cover]), the anchor [ix] is a category present
    in the running vector and in the leaf, and no category of the
    intersection has a larger weight in the leaf. *)
Theorem merge_anchor_max_weight (catavg v : list (option Qc)) (cur_weight : list Z) :
  weights_cover v cur_weight →
  np.where_ (are_intersecting catavg v) ≠ [] →
  let ix := merge_anchor catavg v cur_weight in
  ∃ a d w,
    catavg !! ix = Some (Some a) ∧ v !! ix = Some (Some d)
    ∧ cur_weight !! ix = Some w
    ∧ ix ∈ np.where_ (are_intersecting catavg v)
    ∧ ∀ k w', k ∈ np.where_ (are_intersecting catavg v) →
              cur_weight !! k = Some w' → (w' ≤ w)%Z.
Proof.
  intros [Hlen Hpos] Hne ix.
  destruct (merge_anchor_in_intersection catavg v cur_weight Hlen Hne Hpos)
    as (a & d & w & Ha & Hd & Hw & _ & Hmax).
  exists a, d, w. split_and!; [done | done | done | |].
  - apply elem_of_np_where, are_intersecting_lookup. eauto.
  - intros k w' Hk%elem_of_np_where Hw'.
    destruct (masked_weight_lookup catavg v cur_weight k Hlen Hpos Hk)
      as (w'' & Hw'' & _ & Hm).
    simplify_eq. by eapply Hmax.
Qed.

Lemma merge_anchor_max_weight_witness :
  merge_anchor [Some 0; Some 1; None] [None; Some 0; Some 2] [0; 3; 5]%Z = 1%nat.
Proof.
  destruct (merge_anchor_max_weight
              [Some 0; Some 1; None] [None; Some 0; Some 2] [0; 3; 5]%Z)
    as (a & d & w & Ha & Hd & Hw & Hin & Hmax).
  - split; [reflexivity|].
    intros [|[|[|k]]] d w Hd Hw; simpl in Hd, Hw; simplify_eq; lia.
  - vm_compute. discriminate.
  - vm_compute. reflexivity.
Defined.

(** *** One merge step *)

Lemma merge_column_Some (catavg : list (option Qc)) (W : list Z)
    (v : list (option Qc)) (w : list Z) catavg' W' :
  merge_column catavg W v w = Some (catavg', W') →
  np.where_ (are_intersecting catavg v) ≠ []
  ∧ W' = zip_with Z.add W w
  ∧ catavg'
    = nanavg_vectors catavg
        ((λ x, np.lift2 Qcplus
                 (np.lift2 Qcminus x (nth (merge_anchor catavg v w) v None))
                 (nth (merge_anchor catavg v w) catavg None)) <$> v)
        (Qc_of_Z <$> W) (Qc_of_Z <$> w).
Proof.
  unfold merge_column. case_bool_decide as Hnil; [done|].
  intros [= <- <-]. split_and!; [|done|].
  - intros H. apply Hnil. by rewrite H.
  - by rewrite <-list_fmap_compose.
Qed.

Lemma Qc_of_Z_sum_nonzero (W w : Z) :
  (0 ≤ W)%Z → (0 < w)%Z → Qc_of_Z W + Qc_of_Z w ≠ 0.
Proof.
  intros HW Hw. rewrite <-Z2Qc_inj_add, <-Z2Qc_inj_0. intros H%Z2Qc_inj. lia.
Qed.

(** A merge step leaves the running vector as it is at the anchor and at
    every category for which the leaf has no delta. *)
Lemma merge_column_fixed (catavg : list (option Qc)) (W : list Z)
    (v : list (option Qc)) (w : list Z) catavg' W' :
  length catavg = length v → length W = length v → length w = length v →
  Forall (λ x, 0 ≤ x)%Z W →
  (∀ k d wk, v !! k = Some (Some d) → w !! k = Some wk → (0 < wk)%Z) →
  merge_column catavg W v w = Some (catavg', W') →
  catavg' !! merge_anchor catavg v w = catavg !! merge_anchor catavg v w
  ∧ (∀ k, v !! k = Some None → catavg' !! k = catavg !! k).
Proof.
  intros Lc LW Lw HW Hpos Hm.
  apply merge_column_Some in Hm as (Hne & -> & ->).
  destruct (merge_anchor_in_intersection catavg v w Lw Hne Hpos)
    as (a & d & wx & Ha & Hd & Hwx & Hwpos & _).
  set (ix := merge_anchor catavg v w) in *.
  rewrite (nth_lookup_Some _ _ _ _ Ha), (nth_lookup_Some _ _ _ _ Hd).
  split.
  - destruct (lookup_lt_is_Some_2 W ix) as [Wx HWx].
    { rewrite LW. by eapply lookup_lt_Some. }
    rewrite (nanavg_vectors_lookup catavg _ _ _ ix (Some a) (Some (d - d + a))
               (Qc_of_Z Wx) (Qc_of_Z wx));
      [ | done | by rewrite list_lookup_fmap, Hd
        | by rewrite list_lookup_fmap, HWx | by rewrite list_lookup_fmap, Hwx ].
    rewrite Ha. do 2 f_equal.
    assert (0 ≤ Wx)%Z as HWx0.
    { rewrite Forall_forall in HW. apply HW. by eapply list_elem_of_lookup_2. }
    pose proof (Qc_of_Z_sum_nonzero Wx wx HWx0 Hwpos) as Hnz.
    rewrite bool_decide_eq_false_2 by done. field. done.
  - intros k Hk.
    destruct (lookup_lt_is_Some_2 catavg k) as [x Hx].
    { rewrite Lc. by eapply lookup_lt_Some. }
    destruct (lookup_lt_is_Some_2 W k) as [Wk HWk].
    { rewrite LW. by eapply lookup_lt_Some. }
    destruct (lookup_lt_is_Some_2 w k) as [wk Hwk].
    { rewrite Lw. by eapply lookup_lt_Some. }
    rewrite (nanavg_vectors_lookup catavg _ _ _ k x None (Qc_of_Z Wk) (Qc_of_Z wk));
      [ | done | by rewrite list_lookup_fmap, Hk
        | by rewrite list_lookup_fmap, HWk | by rewrite list_lookup_fmap, Hwk ].
    rewrite Hx. by destruct x.
Qed.

Lemma nanavg_vectors_length (a b : list (option Qc)) (wa wb : list Qc) :
  length b = length a → length wa = length a → length wb = length a →
  length (nanavg_vectors a b wa wb) = length a.
Proof.
  intros Hb Ha Hw. unfold nanavg_vectors, assign_mask, zero_as_one.
  repeat (rewrite ?length_zip_with, ?length_fmap, ?length_zip). lia.
Qed.

(** C5 as stated fails.  The running vector [[0, 1]] with weights
    [[1, 1]] takes the leaf [[0, 3]] with weights [[1, 1]] and becomes
    [[0, 2]]; the same leaf merged again moves category 1, resolved in the
    running vector, from 2 to 7/3. *)
Lemma remerge_changes_resolved_category :
  let v := [Some 0; Some (qz 3)] in
  let w := [1; 1]%Z in
  ∃ c1 W1 c2 W2,
    merge_column [Some 0; Some 1] [1; 1]%Z v w = Some (c1, W1)
    ∧ merge_column c1 W1 v w = Some (c2, W2)
    ∧ c1 !! 1%nat = Some (Some 2)
    ∧ c2 !! 1%nat = Some (Some (Q2Qc (7 # 3)))
    ∧ c2 !! 1%nat ≠ c1 !! 1%nat.
Proof.
  intros v w.
  exists [Some 0; Some 2], [2; 2]%Z, [Some 0; Some (Q2Qc (7 # 3))], [3; 3]%Z.
  split_and!; compute_done.
Qed.

(** C5, amended: when a leaf that was merged into the running vector is
    merged a second time, the running vector keeps its value at the anchor
    category of that merge and at every category for which the leaf has no
    delta (the other categories the two share are averaged again). *)
Theorem remerge_fixed_categories (c0 : list (option Qc)) (W0 : list Z)
    (v : list (option Qc)) (w : list Z) c1 W1 c2 W2 :
  length c0 = length v → length W0 = length v → length w = length v →
  Forall (λ x, 0 ≤ x)%Z W0 → Forall (λ x, 0 ≤ x)%Z w →
  (∀ k d wk, v !! k = Some (Some d) → w !! k = Some wk → (0 < wk)%Z) →
  merge_column c0 W0 v w = Some (c1, W1) →
  merge_column c1 W1 v w = Some (c2, W2) →
  let ix := merge_anchor c1 v w in
  c2 !! ix = c1 !! ix
  ∧ (∀ k, v !! k = Some None → c2 !! k = c1 !! k).
Proof.
  intros Lc LW Lw HW0 Hw0 Hpos H1 H2 ix.
  pose proof H1 as (_ & HW1 & Hc1)%merge_column_Some.
  assert (length c1 = length v) as Lc1.
  { rewrite Hc1, nanavg_vectors_length; rewrite ?length_fmap; congruence. }
  assert (length W1 = length v) as LW1.
  { rewrite HW1, length_zip_with. lia. }
  assert (Forall (λ x, 0 ≤ x)%Z W1) as HW1pos.
  { rewrite HW1. apply Forall_forall.
    intros x (a & b & -> & Ha & Hb)%elem_of_zip_with.
    rewrite Forall_forall in HW0, Hw0. specialize (HW0 a Ha). specialize (Hw0 b Hb).
    simpl in *. lia. }
  exact (merge_column_fixed c1 W1 v w c2 W2 Lc1 LW1 Lw HW1pos Hpos H2).
Qed.

Lemma remerge_fixed_categories_witness :
  match merge_column [Some 0; Some 2; Some (qz 5)] [2; 2; 4]%Z
          [Some 0; Some (qz 3); None] [1; 1; 0]%Z with
  | Some (c2, _) => c2 !! 0%nat = Some (Some 0) ∧ c2 !! 2%nat = Some (Some (qz 5))
  | None => False
  end.
Proof.
  destruct (merge_column [Some 0; Some 2; Some (qz 5)] [2; 2; 4]%Z
              [Some 0; Some (qz 3); None] [1; 1; 0]%Z) as [[c2 W2]|] eqn:H2;
    [|by vm_compute in H2].
  destruct (remerge_fixed_categories
              [Some 0; Some 1; Some (qz 5)] [1; 1; 4]%Z
              [Some 0; Some (qz 3); None] [1; 1; 0]%Z
              [Some 0; Some 2; Some (qz 5)] [2; 2; 4]%Z c2 W2) as [Hix Habs].
  - reflexivity.
  - reflexivity.
  - reflexivity.
  - repeat constructor; lia.
  - repeat constructor; lia.
  - intros [|[|[|k]]] d wk Hd Hwk; simpl in Hd, Hwk; simplify_eq; lia.
  - apply (bool_decide_unpack _). vm_compute. exact I.
  - exact H2.
  - split; [exact Hix | exact (Habs 2%nat eq_refl)].
Defined.

(** *** Merging fully resolved vectors: the closed form *)

Lemma shift_merge_comm (a d1 d2 : Qc) (x l1 l2 : Qc * Z) :
  (0 < x.2)%Z → (0 < l1.2)%Z → (0 < l2.2)%Z →
  shift_merge a d2 (shift_merge a d1 x l1) l2
  = shift_merge a d1 (shift_merge a d2 x l2) l1.
Proof.
  destruct x as [xa xw], l1 as [b1 w1], l2 as [b2 w2]. simpl. intros Hx H1 H2.
  unfold shift_merge. simpl. f_equal; [|lia].
  rewrite !Z2Qc_inj_add.
  assert (Qc_of_Z xw + Qc_of_Z w1 ≠ 0) as N1 by (apply Qc_of_Z_sum_nonzero; lia).
  assert (Qc_of_Z xw + Qc_of_Z w2 ≠ 0) as N2 by (apply Qc_of_Z_sum_nonzero; lia).
  assert (Qc_of_Z xw + Qc_of_Z w1 + Qc_of_Z w2 ≠ 0) as N3.
  { rewrite <-Z2Qc_inj_add. apply Qc_of_Z_sum_nonzero; lia. }
  assert (Qc_of_Z xw + Qc_of_Z w2 + Qc_of_Z w1 ≠ 0) as N4.
  { rewrite <-Z2Qc_inj_add. apply Qc_of_Z_sum_nonzero; lia. }
  field. done.
Qed.

Lemma shift_merge_anchor (a d : Qc) (W w : Z) :
  (0 < W)%Z → (0 < w)%Z → (shift_merge a d (a, W) (d, w)).1 = a.
Proof.
  intros HW Hw. unfold shift_merge. simpl.
  assert (Qc_of_Z W + Qc_of_Z w ≠ 0) as N by (apply Qc_of_Z_sum_nonzero; lia).
  field. done.
Qed.

Lemma zip_with_shift_merge_comm (a d1 d2 : Qc) (s l1 l2 : list (Qc * Z)) :
  Forall (λ c, 0 < c.2)%Z s → Forall (λ c, 0 < c.2)%Z l1 → Forall (λ c, 0 < c.2)%Z l2 →
  zip_with (shift_merge a d2) (zip_with (shift_merge a d1) s l1) l2
  = zip_with (shift_merge a d1) (zip_with (shift_merge a d2) s l2) l1.
Proof.
  intros Hs. revert l1 l2. induction Hs as [|x s Hx Hs IH]; intros l1 l2 H1 H2; [done|].
  destruct H1 as [|c1 l1 Hc1 H1]; [by destruct l2|].
  destruct H2 as [|c2 l2 Hc2 H2]; [done|]. simpl.
  rewrite shift_merge_comm by done. f_equal. by apply IH.
Qed.

(** The state of a merge between fully resolved vectors over [n]
    categories, and a leaf whose anchor is [ix]. *)
Lemma merge_full_good (n ix : nat) (s l : list (Qc * Z)) :
  length s = n → length l = n → (ix < n)%nat →
  Forall (λ c, 0 < c.2)%Z s → Forall (λ c, 0 < c.2)%Z l →
  length (merge_full ix s l) = n
  ∧ Forall (λ c, 0 < c.2)%Z (merge_full ix s l)
  ∧ (nth ix (merge_full ix s l) (0, 0%Z)).1 = (nth ix s (0, 0%Z)).1.
Proof.
  intros Ls Ll Hix Hs Hl. unfold merge_full. split_and!.
  - rewrite length_zip_with. lia.
  - apply Forall_forall. intros c (x & y & -> & Hx & Hy)%elem_of_zip_with.
    rewrite Forall_forall in Hs, Hl. specialize (Hs x Hx). specialize (Hl y Hy).
    simpl in *. lia.
  - destruct (lookup_lt_is_Some_2 s ix) as [[a W] Ha]; [lia|].
    destruct (lookup_lt_is_Some_2 l ix) as [[d w] Hd]; [lia|].
    rewrite (nth_lookup_Some _ _ _ _ Ha), (nth_lookup_Some _ _ _ _ Hd). simpl.
    erewrite nth_lookup_Some; [|by rewrite lookup_zip_with, Ha; simpl; rewrite Hd].
    rewrite Forall_forall in Hs, Hl.
    apply shift_merge_anchor.
    + apply (Hs (a, W)). by eapply list_elem_of_lookup_2.
    + apply (Hl (d, w)). by eapply list_elem_of_lookup_2.
Qed.

Lemma merge_full_comm (n ix : nat) (s l1 l2 : list (Qc * Z)) :
  length s = n → length l1 = n → length l2 = n → (ix < n)%nat →
  Forall (λ c, 0 < c.2)%Z s → Forall (λ c, 0 < c.2)%Z l1 → Forall (λ c, 0 < c.2)%Z l2 →
  merge_full ix (merge_full ix s l1) l2 = merge_full ix (merge_full ix s l2) l1.
Proof.
  intros Ls L1 L2 Hix Hs H1 H2.
  destruct (merge_full_good n ix s l1) as (_ & _ & E1); [done..|].
  destruct (merge_full_good n ix s l2) as (_ & _ & E2); [done..|].
  unfold merge_full at 1 3. rewrite E1, E2. unfold merge_full.
  by apply zip_with_shift_merge_comm.
Qed.

(** Folding the merge over the leaves does not depend on their order. *)
Lemma foldl_merge_full_perm (n ix : nat) (ls ls' : list (list (Qc * Z))) :
  ls ≡ₚ ls' → (ix < n)%nat →
  Forall (λ l, length l = n ∧ Forall (λ c, 0 < c.2)%Z l) ls →
  ∀ s, length s = n → Forall (λ c, 0 < c.2)%Z s →
       foldl (merge_full ix) s ls = foldl (merge_full ix) s ls'.
Proof.
  intros Hp Hix. induction Hp as [|l ls ls' Hp IH|l1 l2 ls|ls ls' ls'' Hp1 IH1 Hp2 IH2];
    intros Hgood s Ls Hs.
  - done.
  - apply Forall_cons in Hgood as [[Ll Hl] Hgood]. simpl.
    destruct (merge_full_good n ix s l) as (L' & H' & _); [done..|].
    by apply IH.
  - apply Forall_cons in Hgood as [[L2 H2] Hgood].
    apply Forall_cons in Hgood as [[L1 H1] Hgood]. simpl.
    by rewrite (merge_full_comm n ix s l2 l1).
  - rewrite IH1 by done. apply IH2; [|done..]. by rewrite <-Hp1.
Qed.

(** *** The merge step on fully resolved vectors *)

Lemma nth_fmap_Some_fst (s : list (Qc * Z)) (ix : nat) :
  (ix < length s)%nat →
  nth ix (Some <$> s.*1) None = Some (nth ix s (0, 0%Z)).1.
Proof.
  intros [c Hc]%lookup_lt_is_Some_2.
  rewrite (nth_lookup_Some _ _ _ _ Hc).
  apply nth_lookup_Some. by rewrite !list_lookup_fmap, Hc.
Qed.

Lemma are_intersecting_full (s l : list (Qc * Z)) (k : nat) :
  length l = length s → (k < length s)%nat →
  are_intersecting (Some <$> s.*1) (Some <$> l.*1) !! k = Some true.
Proof.
  intros Hl Hk. apply are_intersecting_lookup.
  destruct (lookup_lt_is_Some_2 s k) as [[a W] Ha]; [lia|].
  destruct (lookup_lt_is_Some_2 l k) as [[d w] Hd]; [lia|].
  exists a, d. by rewrite !list_lookup_fmap, Ha, Hd.
Qed.

Lemma merge_anchor_full (s l : list (Qc * Z)) :
  length l = length s → Forall (λ c, 0 < c.2)%Z l →
  merge_anchor (Some <$> s.*1) (Some <$> l.*1) l.*2 = np.argmax l.*2.
Proof.
  intros Hl Hpos. unfold merge_anchor. f_equal. apply list_eq. intros k.
  rewrite lookup_zip_with, list_lookup_fmap.
  destruct (l !! k) as [[d w]|] eqn:Hd; simpl; [|done].
  rewrite are_intersecting_full; [|done|].
  - simpl. rewrite Forall_forall in Hpos.
    rewrite bool_decide_eq_true_2; [done|].
    apply (Hpos (d, w)). by eapply list_elem_of_lookup_2.
  - rewrite <-Hl. by eapply lookup_lt_Some.
Qed.

Lemma merge_column_full (n ix : nat) (s l : list (Qc * Z)) :
  length s = n → length l = n → (ix < n)%nat →
  Forall (λ c, 0 < c.2)%Z s → Forall (λ c, 0 < c.2)%Z l →
  np.argmax l.*2 = ix →
  merge_column (Some <$> s.*1) s.*2 (Some <$> l.*1) l.*2
  = Some (Some <$> (merge_full ix s l).*1, (merge_full ix s l).*2).
Proof.
  intros Ls Ll Hix Hs Hl Hmax. unfold merge_column.
  rewrite bool_decide_eq_false_2.
  2:{ intros Hnil%nil_length_inv.
      assert (0%nat ∈ np.where_ (are_intersecting (Some <$> s.*1) (Some <$> l.*1))) as H0.
      { apply elem_of_np_where, are_intersecting_full; lia. }
      rewrite Hnil in H0. by apply not_elem_of_nil in H0. }
  rewrite merge_anchor_full, Hmax by (done || congruence).
  rewrite !nth_fmap_Some_fst by lia.
  set (a_ix := (nth ix s (0, 0%Z)).1). set (d_ix := (nth ix l (0, 0%Z)).1).
  do 2 f_equal.
  - apply (list_eq_same_length _ _ n).
    + unfold merge_full. by rewrite !length_fmap, length_zip_with, Ls, Ll, Nat.min_id.
    + rewrite nanavg_vectors_length; rewrite ?length_fmap; lia.
    + intros k x y Hk Hx Hy.
      destruct (lookup_lt_is_Some_2 s k) as [[a W] Ha]; [lia|].
      destruct (lookup_lt_is_Some_2 l k) as [[d w] Hd]; [lia|].
      rewrite (nanavg_vectors_lookup _ _ _ _ k (Some a) (Some (d - d_ix + a_ix))
                 (Qc_of_Z W) (Qc_of_Z w)) in Hx.
      * unfold merge_full in Hy.
        rewrite !list_lookup_fmap, lookup_zip_with, Ha in Hy. simpl in Hy.
        rewrite Hd in Hy. simpl in Hy. simplify_eq. f_equal.
        rewrite bool_decide_eq_false_2; [done|].
        rewrite Forall_forall in Hs, Hl.
        apply Qc_of_Z_sum_nonzero.
        -- apply Z.lt_le_incl, (Hs (a, W)). by eapply list_elem_of_lookup_2.
        -- apply (Hl (d, w)). by eapply list_elem_of_lookup_2.
      * by rewrite !list_lookup_fmap, Ha.
      * by rewrite !list_lookup_fmap, Hd.
      * by rewrite !list_lookup_fmap, Ha.
      * by rewrite !list_lookup_fmap, Hd.
  - unfold merge_full. fold a_ix d_ix.
    generalize a_ix d_ix. clear. intros a d. revert l.
    induction s as [|x s IH]; intros [|y l]; simpl; [done..|].
    by rewrite IH.
Qed.

(** *** The passes of [avg_values_at_cat] on fully resolved leaves *)

Lemma filter_not_elem_of_self (l : list nat) : filter (λ j, j ∉ l) l = [].
Proof.
  apply elem_of_nil_inv. intros j [Hj Hin]%list_elem_of_filter. by apply Hj.
Qed.

Lemma merge_passes_nil (left : nat) leaf_deltas (st : merge_state) :
  merge_passes left leaf_deltas st [] = (st, []).
Proof. by destruct left. Qed.

Lemma merge_pass_full (n ix : nat) (d0 : list (option Qc)) (ls : list (list (Qc * Z))) :
  (ix < n)%nat →
  Forall (λ l, length l = n ∧ Forall (λ c, 0 < c.2)%Z l ∧ np.argmax l.*2 = ix) ls →
  ∀ (m a : nat) (s : list (Qc * Z)) (comp : list nat),
    (a + m)%nat = length ls → length s = n → Forall (λ c, 0 < c.2)%Z s →
    foldl (merge_leaf (d0 :: ((λ l, Some <$> l.*1) <$> ls)))
      (mkMerge (Some <$> s.*1) (s.*2 :: ((λ l, l.*2) <$> ls)) comp) (seq (S a) m)
    = mkMerge (Some <$> (foldl (merge_full ix) s (drop a ls)).*1)
        ((foldl (merge_full ix) s (drop a ls)).*2 :: ((λ l, l.*2) <$> ls))
        (comp ++ seq (S a) m).
Proof.
  intros Hix Hgood m. induction m as [|m IH]; intros a s comp Ha Ls Hs.
  - rewrite drop_ge by lia. simpl. by rewrite app_nil_r.
  - destruct (lookup_lt_is_Some_2 ls a) as [la Hla]; [lia|].
    rewrite (drop_S _ _ _ Hla). cbn [seq foldl].
    rewrite Forall_forall in Hgood.
    destruct (Hgood la) as (Lla & Hlapos & Hmax); [by eapply list_elem_of_lookup_2|].
    assert (merge_leaf (d0 :: ((λ l, Some <$> l.*1) <$> ls))
              (mkMerge (Some <$> s.*1) (s.*2 :: ((λ l, l.*2) <$> ls)) comp) (S a)
            = mkMerge (Some <$> (merge_full ix s la).*1)
                ((merge_full ix s la).*2 :: ((λ l, l.*2) <$> ls)) (comp ++ [S a])) as ->.
    { unfold merge_leaf. cbn [ms_catavg ms_leaf_counts ms_completed nth].
      rewrite (nth_lookup_Some _ _ _ (Some <$> la.*1))
        by (by rewrite list_lookup_fmap, Hla).
      rewrite (nth_lookup_Some _ _ _ (la.*2)) by (by rewrite list_lookup_fmap, Hla).
      by rewrite (merge_column_full n ix s la). }
    destruct (merge_full_good n ix s la) as (L' & H' & _); [done..|].
    rewrite (IH (S a) (merge_full ix s la) (comp ++ [S a])) by (done || lia).
    by rewrite <-app_assoc.
Qed.

Lemma avg_values_at_cat_full (n ix : nat) (s0 : list (Qc * Z))
    (ls : list (list (Qc * Z))) (max_iter : Z) :
  (ix < n)%nat → length s0 = n → Forall (λ c, 0 < c.2)%Z s0 →
  Forall (λ l, length l = n ∧ Forall (λ c, 0 < c.2)%Z l ∧ np.argmax l.*2 = ix) ls →
  ∃ merge_ignored,
    avg_values_at_cat ((λ l, Some <$> l.*1) <$> (s0 :: ls))
      ((λ l, l.*2) <$> (s0 :: ls)) max_iter
    = inr (Some <$> (if bool_decide (Z.to_nat max_iter = 0%nat) then s0
                     else foldl (merge_full ix) s0 ls).*1,
           (if bool_decide (Z.to_nat max_iter = 0%nat) then s0
            else foldl (merge_full ix) s0 ls).*2,
           merge_ignored).
Proof.
  intros Hix Ls Hs Hgood. unfold avg_values_at_cat. cbn [fmap list_fmap].
  change (list_fmap _ _ ?f ?l) with (f <$> l).
  replace (length ((Some <$> s0.*1) :: ((λ l : list (Qc * Z), Some <$> l.*1) <$> ls)) - 1)%nat
    with (length ls) by (cbn [length]; rewrite length_fmap; lia).
  destruct (Z.to_nat max_iter) as [|k].
  { cbn [merge_passes]. rewrite (bool_decide_eq_true_2 (0%nat = 0%nat)) by done.
    eexists. reflexivity. }
  rewrite (bool_decide_eq_false_2 (S k = 0%nat)) by done.
  destruct ls as [|l0 ls'] eqn:Els.
  { simpl. eexists. reflexivity. }
  rewrite <-Els in *. cbn [merge_passes].
  assert (bool_decide (0 < length (seq 1 (length ls)))%nat = true) as ->.
  { apply bool_decide_eq_true_2. rewrite length_seq, Els. simpl. lia. }
  cbn [ms_completed length andb ms_catavg ms_leaf_counts].
  rewrite bool_decide_eq_true_2 by lia.
  rewrite (merge_pass_full n ix _ ls Hix Hgood (length ls) 0 s0 []) by done.
  cbn [ms_completed app]. rewrite filter_not_elem_of_self, merge_passes_nil.
  rewrite drop_0. cbn [length]. rewrite bool_decide_eq_false_2 by lia.
  eexists. reflexivity.
Qed.

(** *** Fully resolved leaves as lists of cells *)

Lemma fmap_Some_default (l : list (option Qc)) :
  Forall (λ d, d ≠ None) l → Some <$> (default 0 <$> l) = l.
Proof.
  induction 1 as [|x l Hx _ IH]; [done|]. destruct x as [x|]; [|done].
  rewrite !fmap_cons. by f_equal.
Qed.

Lemma cells_full (n : nat) (lf : leaf) :
  full_leaf n lf →
  Some <$> (cells lf).*1 = lf.1 ∧ (cells lf).*2 = lf.2
  ∧ length (cells lf) = n ∧ Forall (λ c, 0 < c.2)%Z (cells lf).
Proof.
  destruct lf as [d w]. intros (Ld & Lw & Hd & Hw). simpl in *. unfold cells. simpl.
  split_and!.
  - rewrite fst_zip by (rewrite length_fmap; lia). by apply fmap_Some_default.
  - apply snd_zip. rewrite length_fmap. lia.
  - rewrite length_zip, length_fmap. lia.
  - apply Forall_forall. intros [x c] Hin. apply elem_of_zip_r in Hin.
    rewrite Forall_forall in Hw. by apply Hw.
Qed.

Lemma leaves_as_cells (n : nat) (leaves : list leaf) :
  Forall (full_leaf n) leaves →
  leaves.*1 = (λ l, Some <$> l.*1) <$> (cells <$> leaves)
  ∧ leaves.*2 = (λ l, l.*2) <$> (cells <$> leaves).
Proof.
  induction 1 as [|lf leaves Hlf _ [IH1 IH2]]; [done|].
  destruct (cells_full n lf Hlf) as (E1 & E2 & _ & _).
  cbn [fmap list_fmap]. change (list_fmap _ _ ?f ?l) with (f <$> l).
  by rewrite E1, E2, IH1, IH2.
Qed.

Lemma avg_values_at_cat_returns d ds c cs max_iter :
  ∃ catavg W merge_ignored,
    avg_values_at_cat (d :: ds) (c :: cs) max_iter = inr (catavg, W, merge_ignored).
Proof. unfold avg_values_at_cat. destruct (merge_passes _ _ _ _). simpl. eauto. Qed.

Lemma Permutation_constant {A} (c : A) (l l' : list A) :
  Forall (λ x, x = c) l → l ≡ₚ l' → l = l'.
Proof.
  intros Hl Hp. assert (Forall (λ x, x = c) l') as Hl' by (by rewrite <-Hp).
  apply Permutation_length in Hp. revert l' Hl' Hp.
  induction Hl as [|x l -> _ IH]; intros l' Hl' Hp.
  - by destruct l'.
  - destruct Hl' as [|y l' -> Hl']; [done|]. simpl in Hp. f_equal. apply IH; [done|lia].
Qed.

(** C1 as stated fails.  The three leaves [leaf_A], [leaf_B], [leaf_C] are
    resolved in both categories; merged in the order A, B, C the final
    vector is [[-3/8, 1/2]], merged in the order A, C, B it is [[-1, 0]]. *)
Lemma avg_values_at_cat_order_dependent :
  [leaf_A; leaf_B; leaf_C] ≡ₚ [leaf_A; leaf_C; leaf_B]
  ∧ fully_overlapping [leaf_A; leaf_B; leaf_C].*1
  ∧ avg_values_at_cat [leaf_A; leaf_B; leaf_C].*1 [leaf_A; leaf_B; leaf_C].*2 3
    = inr ([Some (Q2Qc (-3 # 8)); Some (Q2Qc (1 # 2))], [4; 4]%Z, 0%Z)
  ∧ avg_values_at_cat [leaf_A; leaf_C; leaf_B].*1 [leaf_A; leaf_C; leaf_B].*2 3
    = inr ([Some (- 1); Some 0], [4; 4]%Z, 0%Z)
  ∧ Q2Qc (-3 # 8) ≠ - 1 ∧ Q2Qc (1 # 2) ≠ 0.
Proof.
  split_and!.
  - apply perm_skip, perm_swap.
  - repeat constructor; discriminate.
  - compute_done.
  - compute_done.
  - compute_done.
  - compute_done.
Qed.

(** C1, amended: for leaves that are all resolved in every category with
    positive sample counts, and such that every leaf of the work list has
    its largest count at the same category [ix] (so that every merge takes
    the same anchor), the final vector and its weights do not depend on the
    order in which the leaves of the work list are merged. *)
Theorem avg_values_at_cat_same_anchor_order (first : leaf) (rest rest' : list leaf)
    (n ix : nat) (max_iter : Z) :
  rest ≡ₚ rest' →
  Forall (full_leaf n) (first :: rest) →
  Forall (λ lf, np.argmax lf.2 = ix) rest →
  ∃ catavg W merge_ignored merge_ignored',
    avg_values_at_cat (first :: rest).*1 (first :: rest).*2 max_iter
    = inr (catavg, W, merge_ignored)
    ∧ avg_values_at_cat (first :: rest').*1 (first :: rest').*2 max_iter
      = inr (catavg, W, merge_ignored').
Proof.
  intros Hperm Hfull Hanchor.
  assert (rest = rest' →
          ∃ catavg W mi mi',
            avg_values_at_cat (first :: rest).*1 (first :: rest).*2 max_iter
            = inr (catavg, W, mi)
            ∧ avg_values_at_cat (first :: rest').*1 (first :: rest').*2 max_iter
              = inr (catavg, W, mi')) as Hsame.
  { intros <-.
    destruct (avg_values_at_cat_returns first.1 rest.*1 first.2 rest.*2 max_iter)
      as (catavg & W & mi & E).
    exists catavg, W, mi, mi. by split. }
  destruct rest as [|r0 rest0] eqn:Erest.
  { apply Hsame. by apply Permutation_nil_l in Hperm. }
  rewrite <-Erest in *.
  destruct n as [|n'].
  { apply Hsame. apply (Permutation_constant ([], [])); [|done].
    apply Forall_cons in Hfull as [_ Hfull].
    eapply Forall_impl; [exact Hfull|].
    intros [d w] (Ld%nil_length_inv & Lw%nil_length_inv & _). simpl in *. by subst. }
  set (n := S n') in *.
  assert (Forall (full_leaf n) (first :: rest')) as Hfull' by (by rewrite <-Hperm).
  assert (Forall (λ lf, np.argmax lf.2 = ix) rest') as Hanchor' by (by rewrite <-Hperm).
  assert (ix < n)%nat as Hix.
  { rewrite Erest in Hfull, Hanchor.
    apply Forall_cons in Hanchor as [Hr0 _].
    apply Forall_cons in Hfull as [_ [(_ & Lw & _ & _) _]%Forall_cons].
    destruct (np_argmax_spec r0.2) as (v & Hv & _).
    { intros Hnil. rewrite Hnil in Lw. done. }
    rewrite Hr0 in Hv. apply lookup_lt_Some in Hv. lia. }
  assert (∀ L, Forall (full_leaf n) L → Forall (λ lf, np.argmax lf.2 = ix) L →
               Forall (λ l, length l = n ∧ Forall (λ c, 0 < c.2)%Z l
                            ∧ np.argmax l.*2 = ix) (cells <$> L)) as Hcells.
  { intros L HL HA. apply Forall_fmap, Forall_forall. intros lf Hlf.
    rewrite Forall_forall in HL, HA.
    destruct (cells_full n lf (HL lf Hlf)) as (_ & E2 & Ll & Hpos).
    simpl. rewrite E2. split_and!; [done | done | by apply HA]. }
  destruct (leaves_as_cells n _ Hfull) as [-> ->].
  destruct (leaves_as_cells n _ Hfull') as [-> ->].
  apply Forall_cons in Hfull as [Hfirst Hrest].
  apply Forall_cons in Hfull' as [_ Hrest'].
  destruct (cells_full n first Hfirst) as (_ & _ & Ls0 & Hs0).
  cbn [fmap list_fmap]. change (list_fmap _ _ ?f ?l) with (f <$> l).
  destruct (avg_values_at_cat_full n ix (cells first) (cells <$> rest) max_iter
              Hix Ls0 Hs0 (Hcells rest Hrest Hanchor)) as [mi E].
  destruct (avg_values_at_cat_full n ix (cells first) (cells <$> rest') max_iter
              Hix Ls0 Hs0 (Hcells rest' Hrest' Hanchor')) as [mi' E'].
  cbn [fmap list_fmap] in E, E'. change (list_fmap _ _ ?f ?l) with (f <$> l) in E, E'.
  rewrite <-(foldl_merge_full_perm n ix (cells <$> rest) (cells <$> rest')) in E'.
  - eexists _, _, mi, mi'. split; [exact E | exact E'].
  - by apply fmap_Permutation.
  - done.
  - eapply Forall_impl; [exact (Hcells rest Hrest Hanchor)|]. by intros l (? & ? & _).
  - done.
  - done.
Qed.

Lemma avg_values_at_cat_same_anchor_order_witness :
  ∃ catavg W merge_ignored merge_ignored',
    avg_values_at_cat [leaf_A; leaf_B; leaf_D].*1 [leaf_A; leaf_B; leaf_D].*2 3
    = inr (catavg, W, merge_ignored)
    ∧ avg_values_at_cat [leaf_A; leaf_D; leaf_B].*1 [leaf_A; leaf_D; leaf_B].*2 3
      = inr (catavg, W, merge_ignored').
Proof.
  apply (avg_values_at_cat_same_anchor_order leaf_A [leaf_B; leaf_D] [leaf_D; leaf_B]
           2 0 3).
  - apply perm_swap.
  - repeat constructor; (discriminate || lia).
  - repeat constructor.
Defined.
